(** * Ordered map: a keyed index layered over a linked sequence

    A shallow embedding of the Go package [orderedmap]
    (github.com/jimschubert/ordered-map): the map type with its mutating
    operations, its iterator and the order-sensitive equality, together with
    the invariant tying the key index to the order. *)

From Stdlib Require Import Ascii.
From stdpp Require Import gmap strings list fin_maps.

Set Default Proof Using "Type*".

(** ** Outcomes of a call

    A Go call either returns, or stops with a run-time panic (nil or invalid
    pointer dereference).  Loops are run on fuel; [OutOfFuel] is the outcome
    of a loop that did not finish within it. *)

Inductive outcome (A : Type) : Type :=
  | Ret (a : A)
  | Panic
  | OutOfFuel.

Arguments Ret {A} a.
Arguments Panic {A}.
Arguments OutOfFuel {A}.

#[global] Instance outcome_ret : MRet outcome := λ A a, Ret a.

#[global] Instance outcome_bind : MBind outcome := λ A B f c,
  match c with
  | Ret a => f a
  | Panic => Panic
  | OutOfFuel => OutOfFuel
  end.

(** Dereference of a pointer-like lookup: a missing target is a panic. *)
Definition deref {A : Type} (x : option A) : outcome A :=
  match x with
  | Some a => Ret a
  | None => Panic
  end.

(** ** The sequence primitive *)

Module LinkedList.

(** A position handle: the identity of one list element. *)
Abbreviation Element := nat (only parsing).

Section linked_list.
Context {T : Type}.

(** Modelled from the spec: the doubly linked list package [internal/list]
    is not among the sources; the spec (section 6) gives its contract:
    front, back, insertAtBack returning a position, remove, moveToFront,
    moveToBack, moveAfter, moveBefore, len and next.  [values] holds the
    [Value] field of every element ever created (an element keeps its value
    when it is detached), [chain] the elements currently linked, front to
    back, and [fresh] the next unused handle. *)
Record List : Type := mkList {
  values : gmap Element T;
  chain : list Element;
  fresh : Element
}.

(** Modelled from the spec: the empty sequence. *)
Definition New : List :=
  {| values := ∅; chain := []; fresh := 0 |}.

(** Modelled from the spec: relinking, the elements of [l] put in the
    order [c]. *)
Definition set_chain (c : list Element) (l : List) : List :=
  {| values := values l; chain := c; fresh := fresh l |}.

(** Modelled from the spec: [len()]. *)
Definition Len (l : List) : nat := length (chain l).

(** Modelled from the spec: [front()], absent on the empty sequence. *)
Definition Front (l : List) : option Element := head (chain l).

(** Modelled from the spec: [back()], absent on the empty sequence. *)
Definition Back (l : List) : option Element := last (chain l).

(** Modelled from the spec: the [Value] field of element [e]. *)
Definition Value (l : List) (e : Element) : option T := values l !! e.

(** Modelled from the spec: the element linked after [e] in a chain. *)
Fixpoint successor (e : Element) (c : list Element) : option Element :=
  match c with
  | [] => None
  | x :: c' => if decide (x = e) then head c' else successor e c'
  end.

(** Modelled from the spec: [next(position)], the position after [e], or
    none at the back and for a detached element. *)
Definition Next (l : List) (e : Element) : option Element :=
  successor e (chain l).

(** Modelled from the spec: [insertAtBack(v)], returning the new
    position. *)
Definition PushBack (v : T) (l : List) : Element * List :=
  (fresh l,
   {| values := <[fresh l := v]> (values l);
      chain := chain l ++ [fresh l];
      fresh := S (fresh l) |}).

(** Modelled from the spec: a chain with [e] taken out. *)
Definition unlink (e : Element) (c : list Element) : list Element :=
  filter (λ x, x ≠ e) c.

(** Modelled from the spec: a chain with [e] put right after [mark]. *)
Fixpoint link_after (e mark : Element) (c : list Element) : list Element :=
  match c with
  | [] => []
  | x :: c' =>
      if decide (x = mark) then x :: e :: c' else x :: link_after e mark c'
  end.

(** Modelled from the spec: a chain with [e] put right before [mark]. *)
Fixpoint link_before (e mark : Element) (c : list Element) : list Element :=
  match c with
  | [] => []
  | x :: c' =>
      if decide (x = mark) then e :: x :: c' else x :: link_before e mark c'
  end.

(** Modelled from the spec: [remove(position)]; an element that is not
    linked is left alone. *)
Definition Remove (e : Element) (l : List) : List :=
  if decide (e ∈ chain l) then set_chain (unlink e (chain l)) l else l.

(** Modelled from the spec: [moveToFront(position)]; nothing happens when
    the element is already frontmost or is not linked. *)
Definition MoveToFront (e : Element) (l : List) : List :=
  if decide (e ∈ chain l ∧ Front l ≠ Some e)
  then set_chain (e :: unlink e (chain l)) l else l.

(** Modelled from the spec: [moveToBack(position)]; nothing happens when
    the element is already backmost or is not linked. *)
Definition MoveToBack (e : Element) (l : List) : List :=
  if decide (e ∈ chain l ∧ Back l ≠ Some e)
  then set_chain (unlink e (chain l) ++ [e]) l else l.

(** Modelled from the spec: [moveAfter(position, markPosition)]; a
    self-relative move, or one naming an element that is not linked, does
    nothing. *)
Definition MoveAfter (e mark : Element) (l : List) : List :=
  if decide (e ∈ chain l ∧ mark ∈ chain l ∧ e ≠ mark)
  then set_chain (link_after e mark (unlink e (chain l))) l else l.

(** Modelled from the spec: [moveBefore(position, markPosition)]; a
    self-relative move, or one naming an element that is not linked, does
    nothing. *)
Definition MoveBefore (e mark : Element) (l : List) : List :=
  if decide (e ∈ chain l ∧ mark ∈ chain l ∧ e ≠ mark)
  then set_chain (link_before e mark (unlink e (chain l))) l else l.

(** Modelled from the spec: re-initialization, which leaves the sequence
    empty; the elements created so far are detached, not reused. *)
Definition Init (l : List) : List := set_chain [] l.

End linked_list.

Arguments List T : clear implicits.

End LinkedList.

(** ** The ordered map *)

(** The address of a [KeyValuePair] allocated on the heap. *)
Abbreviation loc := nat (only parsing).

Section ordered_map.
Context {K : Type} `{Countable K} {V : Type}.

(** [KeyValuePair]: [element] is a nilable pointer to the pair's list
    element. *)
Record KeyValuePair : Type := mkPair {
  Key : K;
  Value : V;
  element : option LinkedList.Element
}.

(** [OrderedMap]: [items] is the Go map from keys to pair pointers and
    [order] the list of (nilable) pair pointers.  Both refer to the same
    pairs: [heap] is the store of the pairs this map has allocated and
    [brk] the next unused address. *)
Record OrderedMap : Type := mkMap {
  items : gmap K loc;
  order : LinkedList.List (option loc);
  heap : gmap loc KeyValuePair;
  brk : loc
}.

Inductive error : Type :=
  | KeyNotFoundError (key : K)
  | DuplicateKeyValueError (key : K) (value : V).

Definition keyNotFound (key : K) : error := KeyNotFoundError key.

Definition duplicateValue (key : K) (value : V) : error :=
  DuplicateKeyValueError key value.

Definition set_items (i : gmap K loc) (o : OrderedMap) : OrderedMap :=
  {| items := i; order := order o; heap := heap o; brk := brk o |}.

Definition set_order (l : LinkedList.List (option loc)) (o : OrderedMap)
  : OrderedMap :=
  {| items := items o; order := l; heap := heap o; brk := brk o |}.

Definition set_heap (h : gmap loc KeyValuePair) (o : OrderedMap)
  : OrderedMap :=
  {| items := items o; order := order o; heap := h; brk := brk o |}.

(** [&pair] for a new local [pair]: the pair is stored at a new address. *)
Definition alloc (kv : KeyValuePair) (o : OrderedMap) : loc * OrderedMap :=
  (brk o,
   {| items := items o; order := order o;
      heap := <[brk o := kv]> (heap o); brk := S (brk o) |}).

(** [*p] *)
Definition load (o : OrderedMap) (p : loc) : outcome KeyValuePair :=
  deref (heap o !! p).

(** [*p = kv] *)
Definition store (p : loc) (kv : KeyValuePair) (o : OrderedMap)
  : outcome OrderedMap :=
  _ ← load o p; Ret (set_heap (<[p := kv]> (heap o)) o).

(** [New]: the list and the Go map are both empty. *)
Definition New : OrderedMap :=
  {| items := ∅; order := LinkedList.New; heap := ∅; brk := 0 |}.

(** [insertKeyValuePair]: the new pair is pushed at the back of [order],
    indexed under [key], and then given its element. *)
Definition insertKeyValuePair (key : K) (value : V) (o : OrderedMap)
  : outcome (loc * OrderedMap) :=
  let '(ptr, o) := alloc (mkPair key value None) o in
  let '(elem, l) := LinkedList.PushBack (Some ptr) (order o) in
  let o := set_order l o in
  let o := set_items (<[key := ptr]> (items o)) o in
  kv ← load o ptr;
  o ← store ptr (mkPair (Key kv) (Value kv) (Some elem)) o;
  Ret (ptr, o).

(** [OrderedMap.Set] ([Set] is a reserved word here).  An existing pair is
    overwritten through its pointer, so the index and the list both see the
    new value. *)
Definition Set_ (key : K) (value : V) (o : OrderedMap) : outcome OrderedMap :=
  match items o !! key with
  | Some existing =>
      kv ← load o existing;
      store existing (mkPair (Key kv) value (element kv)) o
  | None =>
      '(_, o) ← insertKeyValuePair key value o;
      Ret o
  end.

(** [OrderedMap.Get]: a pointer to a copy of the value, or nil, and the
    found flag. *)
Definition Get (key : K) (o : OrderedMap) : outcome (option V * bool) :=
  match items o !! key with
  | Some existing =>
      kv ← load o existing;
      Ret (Some (Value kv), true)
  | None => Ret (None, false)
  end.

(** [OrderedMap.Remove]: the removed pair's pointer, or nil, and the flag. *)
Definition Remove (key : K) (o : OrderedMap)
  : outcome (option loc * bool * OrderedMap) :=
  match items o !! key with
  | Some kvp =>
      let o := set_items (delete key (items o)) o in
      kv ← load o kvp;
      e ← deref (element kv);
      let o := set_order (LinkedList.Remove e (order o)) o in
      Ret (Some kvp, true, o)
  | None => Ret (None, false, o)
  end.

Definition First (o : OrderedMap) : outcome (option loc) :=
  match LinkedList.Front (order o) with
  | None => Ret None
  | Some front => deref (LinkedList.Value (order o) front)
  end.

Definition Last (o : OrderedMap) : outcome (option loc) :=
  match LinkedList.Back (order o) with
  | None => Ret None
  | Some last => deref (LinkedList.Value (order o) last)
  end.

(** [Iterator]: the cursor [pos]; the [orderedMap] field is the map the
    cursor's methods are given. *)
Record Iterator : Type := mkIterator {
  pos : option LinkedList.Element
}.

(** [OrderedMap.Iterator] *)
Definition OrderedMap_Iterator (o : OrderedMap) : Iterator :=
  {| pos := LinkedList.Front (order o) |}.

(** [Iterator.Next] on a cursor of map [o]. *)
Definition Next (o : OrderedMap) (i : Iterator)
  : outcome (option loc * Iterator) :=
  match pos i with
  | None => Ret (None, i)
  | Some e =>
      v ← deref (LinkedList.Value (order o) e);
      match v with
      | Some value => Ret (Some value, {| pos := LinkedList.Next (order o) e |})
      | None => Ret (None, i)
      end
  end.

(** The [for] loop of [Keys]. *)
Fixpoint Keys_loop (fuel : nat) (o : OrderedMap) (it : Iterator)
    (keys : list K) : outcome (list K) :=
  match fuel with
  | 0 => OutOfFuel
  | S fuel =>
      '(kvp, it) ← Next o it;
      match kvp with
      | None => Ret keys
      | Some p =>
          kv ← load o p;
          Keys_loop fuel o it (keys ++ [Key kv])
      end
  end.

Definition Keys (o : OrderedMap) : outcome (list K) :=
  Keys_loop (S (LinkedList.Len (order o))) o (OrderedMap_Iterator o) [].

Definition MoveToFront (key : K) (o : OrderedMap)
  : outcome (option error * OrderedMap) :=
  match items o !! key with
  | Some p =>
      kv ← load o p;
      e ← deref (element kv);
      Ret (None, set_order (LinkedList.MoveToFront e (order o)) o)
  | None => Ret (Some (keyNotFound key), o)
  end.

Definition MoveToBack (key : K) (o : OrderedMap)
  : outcome (option error * OrderedMap) :=
  match items o !! key with
  | Some p =>
      kv ← load o p;
      e ← deref (element kv);
      Ret (None, set_order (LinkedList.MoveToBack e (order o)) o)
  | None => Ret (Some (keyNotFound key), o)
  end.

Definition MoveAfter (key after : K) (o : OrderedMap)
  : outcome (option error * OrderedMap) :=
  match items o !! key with
  | Some p =>
      match items o !! after with
      | Some q =>
          kv ← load o p;
          e ← deref (element kv);
          mark ← load o q;
          m ← deref (element mark);
          Ret (None, set_order (LinkedList.MoveAfter e m (order o)) o)
      | None => Ret (Some (keyNotFound after), o)
      end
  | None => Ret (Some (keyNotFound key), o)
  end.

Definition MoveBefore (key before : K) (o : OrderedMap)
  : outcome (option error * OrderedMap) :=
  match items o !! key with
  | Some p =>
      match items o !! before with
      | Some q =>
          kv ← load o p;
          e ← deref (element kv);
          mark ← load o q;
          m ← deref (element mark);
          Ret (None, set_order (LinkedList.MoveBefore e m (order o)) o)
      | None => Ret (Some (keyNotFound before), o)
      end
  | None => Ret (Some (keyNotFound key), o)
  end.

(** [OrderedMap.InsertAfter]; the error returned when [after] is absent is
    [keyNotFound(key)], as in the source. *)
Definition InsertAfter (key : K) (value : V) (after : K) (o : OrderedMap)
  : outcome (option error * OrderedMap) :=
  match items o !! after with
  | Some q =>
      match items o !! key with
      | Some p =>
          exists_ ← load o p;
          Ret (Some (duplicateValue (Key exists_) (Value exists_)), o)
      | None =>
          if decide (key = after) then
            mark ← load o q;
            Ret (Some (duplicateValue (Key mark) (Value mark)), o)
          else
            '(newElement, o) ← insertKeyValuePair key value o;
            kv ← load o newElement;
            e ← deref (element kv);
            mark ← load o q;
            m ← deref (element mark);
            Ret (None, set_order (LinkedList.MoveAfter e m (order o)) o)
      end
  | None => Ret (Some (keyNotFound key), o)
  end.

(** [OrderedMap.InsertBefore]; the error returned when [before] is absent
    is [keyNotFound(key)], as in the source. *)
Definition InsertBefore (key : K) (value : V) (before : K) (o : OrderedMap)
  : outcome (option error * OrderedMap) :=
  match items o !! before with
  | Some q =>
      match items o !! key with
      | Some p =>
          exists_ ← load o p;
          Ret (Some (duplicateValue (Key exists_) (Value exists_)), o)
      | None =>
          if decide (key = before) then
            mark ← load o q;
            Ret (Some (duplicateValue (Key mark) (Value mark)), o)
          else
            '(newElement, o) ← insertKeyValuePair key value o;
            kv ← load o newElement;
            e ← deref (element kv);
            mark ← load o q;
            m ← deref (element mark);
            Ret (None, set_order (LinkedList.MoveBefore e m (order o)) o)
      end
  | None => Ret (Some (keyNotFound key), o)
  end.

End ordered_map.

(** ** Equality *)

Section equality.
Context {K : Type} `{Countable K} {V : Type}.

(** [reflect.DeepEqual] on two values of type [V]. *)
Variable DeepEqual : V → V → bool.

(** [p == nil] *)
Definition is_nil {A : Type} (p : option A) : bool :=
  match p with
  | None => true
  | Some _ => false
  end.

(** The [for] loop of [Equal]. *)
Fixpoint Equal_loop (fuel : nat) (x y : @OrderedMap K _ _ V)
    (xIt yIt : Iterator) : outcome bool :=
  match fuel with
  | 0 => OutOfFuel
  | S fuel =>
      '(xCurrent, xIt) ← Next x xIt;
      '(yCurrent, yIt) ← Next y yIt;
      if is_nil xCurrent && is_nil yCurrent then Ret true
      else if (is_nil xCurrent && negb (is_nil yCurrent))
              || (is_nil yCurrent && negb (is_nil xCurrent)) then Ret false
      else
        xp ← deref xCurrent;
        yp ← deref yCurrent;
        xkv ← load x xp;
        ykv ← load y yp;
        if negb (bool_decide (Key xkv = Key ykv)) then Ret false
        else if negb (DeepEqual (Value xkv) (Value ykv)) then Ret false
        else Equal_loop fuel x y xIt yIt
  end.

(** [Equal]; a nil [*OrderedMap] is [None].  Reading [x.order] or
    [y.order] through a nil pointer panics. *)
Definition Equal (x y : option (@OrderedMap K _ _ V)) : outcome bool :=
  if (is_nil x && negb (is_nil y)) || (is_nil y && negb (is_nil x))
  then Ret false
  else
    xo ← deref x;
    yo ← deref y;
    if negb (bool_decide (LinkedList.Len (order xo) = LinkedList.Len (order yo)))
    then Ret false
    else
      Equal_loop (S (LinkedList.Len (order xo))) xo yo
        (OrderedMap_Iterator xo) (OrderedMap_Iterator yo).

(** Two entries at one position agree: equal keys, deeply equal values. *)
Definition same_entry (a b : K * V) : Prop :=
  a.1 = b.1 ∧ DeepEqual a.2 b.2 = true.

End equality.

(** ** Re-initialization, defaults and the test suite's constructor *)

Section accessors.
Context {K : Type} `{Countable K} {V : Type}.

(** [OrderedMap.Init]: a new, empty Go map and a re-initialized list. *)
Definition Init (o : @OrderedMap K _ _ V) : OrderedMap :=
  let o := set_items ∅ o in
  set_order (LinkedList.Init (order o)) o.

(** [OrderedMap.GetOrDefault] *)
Definition GetOrDefault (key : K) (defaultValue : V) (o : @OrderedMap K _ _ V)
  : outcome V :=
  '(value, ok) ← Get key o;
  if is_nil value || negb ok then Ret defaultValue
  else deref value.

(** The [for ... range item] loop of the test helper [newFromPairs]. *)
Fixpoint newFromPairs_loop (item : list (K * V)) (m : @OrderedMap K _ _ V)
  : outcome OrderedMap :=
  match item with
  | [] => Ret m
  | k :: item => m ← Set_ k.1 k.2 m; newFromPairs_loop item m
  end.

(** [newFromPairs] of the test suite. *)
Definition newFromPairs (item : list (K * V)) : outcome (@OrderedMap K _ _ V) :=
  newFromPairs_loop item New.

End accessors.

(** ** The logical view of a map and its invariant *)

Section view.
Context {K : Type} `{Countable K} {V : Type}.
Implicit Types o : @OrderedMap K _ _ V.

(** The pair a linked element refers to. *)
Definition pair_at o (e : LinkedList.Element) : option KeyValuePair :=
  match LinkedList.values (order o) !! e with
  | Some (Some p) => heap o !! p
  | _ => None
  end.

Definition entry_at o (e : LinkedList.Element) : option (K * V) :=
  match pair_at o e with
  | Some kv => Some (Key kv, Value kv)
  | None => None
  end.

(** The key/value pairs met when walking [order] front to back. *)
Definition entries o : list (K * V) :=
  omap (entry_at o) (LinkedList.chain (order o)).

(** Bijection and position coherence: every indexed key points to a pair
    that carries that key and whose element is linked and holds the pair;
    every linked element holds a pair that points back to the element and
    is indexed under its own key; handles and addresses in use are below
    the allocation marks. *)
Record wf o : Prop := mkWf {
  wf_nodup : NoDup (LinkedList.chain (order o));
  wf_items : ∀ k p, items o !! k = Some p →
    ∃ v e, heap o !! p = Some (mkPair k v (Some e))
           ∧ e ∈ LinkedList.chain (order o)
           ∧ LinkedList.values (order o) !! e = Some (Some p);
  wf_chain : ∀ e, e ∈ LinkedList.chain (order o) →
    ∃ p k v, LinkedList.values (order o) !! e = Some (Some p)
             ∧ heap o !! p = Some (mkPair k v (Some e))
             ∧ items o !! k = Some p;
  wf_fresh : ∀ e, e ∈ LinkedList.chain (order o) →
    e < LinkedList.fresh (order o);
  wf_brk : ∀ p, is_Some (heap o !! p) → p < brk o
}.

(** The map after [insertKeyValuePair key value]. *)
Definition inserted k v o : OrderedMap :=
  {| items := <[k := brk o]> (items o);
     order :=
       {| LinkedList.values :=
            <[LinkedList.fresh (order o) := Some (brk o)]>
              (LinkedList.values (order o));
          LinkedList.chain :=
            LinkedList.chain (order o) ++ [LinkedList.fresh (order o)];
          LinkedList.fresh := S (LinkedList.fresh (order o)) |};
     heap :=
       <[brk o := mkPair k v (Some (LinkedList.fresh (order o)))]> (heap o);
     brk := S (brk o) |}.

(** The map after [Remove key] has unlinked element [e]. *)
Definition removed k (e : LinkedList.Element) o : OrderedMap :=
  set_order
    (LinkedList.set_chain (LinkedList.unlink e (LinkedList.chain (order o)))
       (order o))
    (set_items (delete k (items o)) o).

(** What [Set key value] on a present key does to one entry of the walk. *)
Definition overwrite (key : K) (value : V) (kv : K * V) : K * V :=
  if decide (kv.1 = key) then (key, value) else kv.

(** A caller making [n] successive [Next] calls on one cursor, reading the
    pair behind every pointer it is handed. *)
Fixpoint calls (n : nat) o (it : Iterator) : outcome (list (option (K * V))) :=
  match n with
  | 0 => Ret []
  | S n =>
      '(kvp, it) ← Next o it;
      r ← match kvp with
          | None => Ret None
          | Some p => kv ← load o p; Ret (Some (Key kv, Value kv))
          end;
      rest ← calls n o it;
      Ret (r :: rest)
  end.

(** The public mutating operations. *)
Inductive op : Type :=
  | OpSet (key : K) (value : V)
  | OpRemove (key : K)
  | OpMoveToFront (key : K)
  | OpMoveToBack (key : K)
  | OpMoveAfter (key after : K)
  | OpMoveBefore (key before : K)
  | OpInsertAfter (key : K) (value : V) (after : K)
  | OpInsertBefore (key : K) (value : V) (before : K).

Definition step (c : op) o : outcome OrderedMap :=
  match c with
  | OpSet key value => Set_ key value o
  | OpRemove key => r ← Remove key o; Ret r.2
  | OpMoveToFront key => r ← MoveToFront key o; Ret r.2
  | OpMoveToBack key => r ← MoveToBack key o; Ret r.2
  | OpMoveAfter key after => r ← MoveAfter key after o; Ret r.2
  | OpMoveBefore key before => r ← MoveBefore key before o; Ret r.2
  | OpInsertAfter key value after => r ← InsertAfter key value after o; Ret r.2
  | OpInsertBefore key value before => r ← InsertBefore key value before o; Ret r.2
  end.

Fixpoint run (cs : list op) o : outcome OrderedMap :=
  match cs with
  | [] => Ret o
  | c :: cs => o ← step c o; run cs o
  end.

End view.

(** ** Maps of the test suite *)

Module Scenario.

(** The map an operation sequence builds from [New]. *)
Definition built {K : Type} `{Countable K} {V : Type} (cs : list (@op K V))
  : @OrderedMap K _ _ V :=
  match run cs New with
  | Ret o => o
  | _ => New
  end.

(** [newFromPairs(kvp("first", "1st"), kvp("second", "2nd"),
    kvp("fourth", "4th"), kvp("fifth", "5th"))] *)
Definition fourSets : list (@op string string) :=
  [OpSet "first" "1st"; OpSet "second" "2nd";
   OpSet "fourth" "4th"; OpSet "fifth" "5th"].

Definition four : @OrderedMap string _ _ string :=
  Eval vm_compute in built fourSets.

(** The map of the spec's equality example, inserted a then b. *)
Definition abSets : list (@op string nat) := [OpSet "a" 1; OpSet "b" 2].

Definition ab : @OrderedMap string _ _ nat := Eval vm_compute in built abSets.

(** The same pairs, inserted b then a. *)
Definition baSets : list (@op string nat) := [OpSet "b" 2; OpSet "a" 1].

Definition ba : @OrderedMap string _ _ nat := Eval vm_compute in built baSets.

(** The pairs of [ab] reached another way: inserted b then a, then a moved
    to the front. *)
Definition abMovedSets : list (@op string nat) :=
  [OpSet "b" 2; OpSet "a" 1; OpMoveToFront "a"].

Definition abMoved : @OrderedMap string _ _ nat :=
  Eval vm_compute in built abMovedSets.

(** The pairs given to [newFromPairs] for the map [four]. *)
Definition fourPairs : list (string * string) :=
  [("first", "1st"); ("second", "2nd"); ("fourth", "4th"); ("fifth", "5th")].

End Scenario.

(** ** The text diff of the test suite (package [myers]) *)

Module Myers.

(** Go's [int] is a 64-bit two's complement integer: the result of an
    arithmetic operation is wrapped into its range. *)
Definition wrap (z : Z) : Z := ((z + 2 ^ 63) `mod` 2 ^ 64 - 2 ^ 63)%Z.

Definition add (a b : Z) : Z := wrap (a + b).

Definition sub (a b : Z) : Z := wrap (a - b).

Definition mul (a b : Z) : Z := wrap (a * b).

Definition neg (a : Z) : Z := wrap (- a).

(** [len(l)] *)
Definition len {A : Type} (l : list A) : Z := Z.of_nat (length l).

(** [l[i]]: an index outside [0, len(l)) panics. *)
Definition index {A : Type} (l : list A) (i : Z) : outcome A :=
  if (i <? 0)%Z then Panic else deref (l !! Z.to_nat i).

(** [l[i] = x] *)
Definition assign {A : Type} (l : list A) (i : Z) (x : A) : outcome (list A) :=
  if ((i <? 0) || (len l <=? i))%Z then Panic
  else Ret (<[Z.to_nat i := x]> l).

(** [arr[a:b]] on a byte slice whose backing array is [arr]: the bounds are
    checked against the capacity. *)
Definition slice (arr : list ascii) (a b : Z) : outcome (list ascii) :=
  if ((a <? 0) || (b <? a) || (len arr <? b))%Z then Panic
  else Ret (take (Z.to_nat (b - a)) (drop (Z.to_nat a) arr)).

(** [make([]int, size)] *)
Definition make (size : Z) : outcome (list Z) :=
  if (size <? 0)%Z then Panic else Ret (replicate (Z.to_nat size) 0%Z).

Record point : Type := mkPoint { X : Z; Y : Z }.

Record step : Type := mkStep { from : point; to : point }.

Abbreviation editList := (list Z) (only parsing).

(** [editList.get]: a negative index counts from the end. *)
Definition get (e : editList) (idx : Z) : outcome Z :=
  if (idx <? 0)%Z then index e (add (len e) idx) else index e idx.

Inductive operation : Type := ins | del | eql.

Record lineDiff : Type := mkLineDiff { op : operation; a : string }.

(** [lineDiff.String]: deletions in red, insertions in green. *)
Definition lineDiff_String (l : lineDiff) : string :=
  match op l with
  | del => String "027" "[31m" +:+ a l +:+ String "027" "[0m"
  | ins => String "027" "[32m" +:+ a l +:+ String "027" "[0m"
  | eql => a l
  end.

Definition min (a b : Z) : Z := if (a <=? b)%Z then a else b.

(** The innermost loop of [ses], following a diagonal while the bytes
    agree. *)
Fixpoint ses_snake (fuel : nat) (lhs rhs : list ascii) (x y : Z)
  : outcome (Z * Z) :=
  match fuel with
  | 0 => OutOfFuel
  | S fuel =>
      if ((x <? len lhs) && (y <? len rhs))%Z then
        l ← index lhs x;
        r ← index rhs y;
        if bool_decide (l = r) then ses_snake fuel lhs rhs (add x 1) (add y 1)
        else Ret (x, y)
      else Ret (x, y)
  end.

(** The loop over [k] of [ses]; the flag tells whether the function
    returned from inside the loop. *)
Fixpoint ses_k (fuel : nat) (lhs rhs : list ascii) (d k : Z) (v : editList)
  : outcome (bool * editList) :=
  match fuel with
  | 0 => OutOfFuel
  | S fuel =>
      if (k <=? d)%Z then
        preK ← get v (sub k 1);
        postK ← get v (add k 1);
        let x :=
          if ((k =? neg d) || (negb (k =? d) && (preK <? postK)))%Z
          then postK else add preK 1 in
        let y := sub x k in
        '(x, y) ← ses_snake (S (length lhs)) lhs rhs x y;
        v ← (if (k <? 0)%Z then assign v (add (len v) k) x else assign v k x);
        if ((len lhs <=? x) && (len rhs <=? y))%Z then Ret (true, v)
        else ses_k fuel lhs rhs d (add k 2) v
      else Ret (false, v)
  end.

(** The loop over [d] of [ses]. *)
Fixpoint ses_d (fuel : nat) (lhs rhs : list ascii) (maxLen d : Z)
    (v : editList) (trace : list editList) : outcome (list editList) :=
  match fuel with
  | 0 => OutOfFuel
  | S fuel =>
      if (d <=? maxLen)%Z then
        let current := v in
        let trace := trace ++ [current] in
        '(returned, v) ← ses_k (S (S (Z.to_nat d))) lhs rhs d (neg d) v;
        if returned : bool then Ret trace
        else ses_d fuel lhs rhs maxLen (add d 1) v trace
      else Ret trace
  end.

(** [ses]; its error result is always nil and is left out. *)
Definition ses (lhs rhs : list ascii) : outcome (list editList) :=
  let n := len lhs in
  let m := len rhs in
  let maxLen := add n m in
  v ← make (add (mul 2 maxLen) 1);
  ses_d (S (S (Z.to_nat maxLen))) lhs rhs maxLen 0 v [].

(** The inner loop of [backtrack], walking a diagonal backwards. *)
Fixpoint backtrack_diagonal (fuel : nat) (x y prevX prevY : Z)
    (steps : list step) : outcome (Z * Z * list step) :=
  match fuel with
  | 0 => OutOfFuel
  | S fuel =>
      if ((prevX <? x) && (prevY <? y))%Z then
        backtrack_diagonal fuel (sub x 1) (sub y 1) prevX prevY
          (steps ++ [mkStep (mkPoint (sub x 1) (sub y 1)) (mkPoint x y)])
      else Ret (x, y, steps)
  end.

(** The loop of [backtrack] for [d] from [dn - 1] down to 0. *)
Fixpoint backtrack_d (dn : nat) (edits : list editList) (x y : Z)
    (steps : list step) : outcome (list step) :=
  match dn with
  | 0 => Ret steps
  | S dn =>
      let d := Z.of_nat dn in
      v ← index edits d;
      let k := sub x y in
      prevK ←
        (if (k =? neg d)%Z then Ret (add k 1)
         else if negb (k =? d)%Z then
           pre ← get v (sub k 1);
           post ← get v (add k 1);
           if (pre <? post)%Z then Ret (add k 1) else Ret (sub k 1)
         else Ret (sub k 1));
      prevX ← get v prevK;
      let prevY := sub prevX prevK in
      '(x, y, steps) ←
        backtrack_diagonal (S (Z.to_nat (x - prevX))) x y prevX prevY steps;
      let steps :=
        if (0 <? d)%Z
        then steps ++ [mkStep (mkPoint prevX prevY) (mkPoint x y)]
        else steps in
      backtrack_d dn edits prevX prevY steps
  end.

(** [backtrack]; its error result is always nil and is left out. *)
Definition backtrack (lhs rhs : list ascii) : outcome (list step) :=
  edits ← ses lhs rhs;
  backtrack_d (length edits) edits (len lhs) (len rhs) [].

(** The step [(i, i) -> (i+1, i+1)]: one byte kept. *)
Definition diagonal (i : Z) : step :=
  mkStep (mkPoint i i) (mkPoint (i + 1) (i + 1)).

Section diff.

(** [sort.SliceStable(steps, less)] with the comparison of [Diff], which
    answers true for every pair: the standard library's result for such a
    comparison is some rearrangement of the steps. *)
Variable SliceStable : list step → list step.

(** The backing array of [[]byte(s)]: the bytes of [s], followed by as much
    spare capacity as the runtime allocates. *)
Variable backing : list ascii → list ascii.

(** The [for ... range steps] loop of [Diff]. *)
Fixpoint Diff_loop (steps : list step) (lhs rhs : list ascii)
    (buf : string) (unequal : bool) (prevA : Z) : outcome (string * bool * Z) :=
  match steps with
  | [] => Ret (buf, unequal, prevA)
  | s :: steps =>
      if (X (to s) =? X (from s))%Z then
        same ← slice (backing rhs) (min prevA (Y (to s))) (Y (to s));
        let buf := buf +:+ lineDiff_String (mkLineDiff eql (String.string_of_list_ascii same)) in
        inserted ← slice (backing rhs) (Y (from s)) (Y (to s));
        let buf := buf +:+ lineDiff_String (mkLineDiff ins (String.string_of_list_ascii inserted)) in
        Diff_loop steps lhs rhs buf true (add (Y (to s)) 1)
      else if (Y (to s) =? Y (from s))%Z then
        same ← slice (backing rhs) (min prevA (X (from s))) (X (from s));
        let buf := buf +:+ lineDiff_String (mkLineDiff eql (String.string_of_list_ascii same)) in
        remove ← slice (backing lhs) (X (from s)) (X (to s));
        let buf := buf +:+ lineDiff_String (mkLineDiff del (String.string_of_list_ascii remove)) in
        Diff_loop steps lhs rhs buf true (add (X (from s)) 1)
      else
        same ← slice (backing rhs) (Y (from s)) (Y (to s));
        let buf := buf +:+ lineDiff_String (mkLineDiff eql (String.string_of_list_ascii same)) in
        Diff_loop steps lhs rhs buf unequal (add (Y (to s)) 1)
  end.

(** [Diff] *)
Definition Diff (first second : string) : outcome (string * bool) :=
  let lhs := String.list_ascii_of_string first in
  let rhs := String.list_ascii_of_string second in
  steps ← backtrack lhs rhs;
  let steps := SliceStable steps in
  '(buf, unequal, prevA) ← Diff_loop steps lhs rhs "" false 0;
  buf ←
    (if unequal && (prevA <? len rhs)%Z then
       rest ← slice (backing rhs) prevA (len rhs);
       Ret (buf +:+ String.string_of_list_ascii rest)
     else Ret buf);
  if unequal : bool then Ret (buf, true) else Ret (EmptyString, false).

End diff.

End Myers.

(** * Properties *)

(** ** Relinking a chain *)

Section chains.
Import LinkedList.
Implicit Types (e mark : Element) (c : list Element).

Lemma unlink_notin e c : e ∉ c → unlink e c = c.
Proof.
  induction c as [|x c IH]; intros Hn; [done|].
  apply not_elem_of_cons in Hn as [Hx Hc].
  unfold unlink in *. rewrite filter_cons_True by done. by rewrite IH.
Qed.

Lemma unlink_split e c1 c2 :
  NoDup (c1 ++ e :: c2) → unlink e (c1 ++ e :: c2) = c1 ++ c2.
Proof.
  intros Hnd. apply NoDup_app in Hnd as (_ & Hdisj & Hnd2).
  apply NoDup_cons in Hnd2 as [He2 _].
  unfold unlink. rewrite filter_app, filter_cons_False by naive_solver.
  fold (unlink e c1) (unlink e c2).
  rewrite !unlink_notin; [done..|].
  intros Hin. apply (Hdisj e Hin). left.
Qed.

Lemma elem_of_unlink x e c : x ∈ unlink e c ↔ x ≠ e ∧ x ∈ c.
Proof. unfold unlink. by rewrite list_elem_of_filter. Qed.

Lemma unlink_perm e c : NoDup c → e ∈ c → e :: unlink e c ≡ₚ c.
Proof.
  intros Hnd Hin. apply list_elem_of_split in Hin as (c1 & c2 & ->).
  rewrite unlink_split by done. by rewrite Permutation_middle.
Qed.

Lemma link_after_perm e mark c : mark ∈ c → link_after e mark c ≡ₚ e :: c.
Proof.
  induction c as [|x c IH]; intros Hin; [by apply elem_of_nil in Hin|].
  simpl. case_decide as Hx.
  - apply Permutation_swap.
  - apply elem_of_cons in Hin as [->|Hin]; [done|].
    rewrite IH by done. apply Permutation_swap.
Qed.

Lemma link_before_perm e mark c : mark ∈ c → link_before e mark c ≡ₚ e :: c.
Proof.
  induction c as [|x c IH]; intros Hin; [by apply elem_of_nil in Hin|].
  simpl. case_decide as Hx; [done|].
  apply elem_of_cons in Hin as [->|Hin]; [done|].
  rewrite IH by done. apply Permutation_swap.
Qed.

Lemma LinkedList_successor_split e c1 c2 :
  NoDup (c1 ++ e :: c2) → successor e (c1 ++ e :: c2) = head c2.
Proof.
  induction c1 as [|x c1 IH]; simpl; intros Hnd.
  - by rewrite decide_True.
  - apply NoDup_cons in Hnd as [Hx Hnd].
    rewrite decide_False; [by apply IH|].
    intros ->. apply Hx. apply elem_of_app. right. left.
Qed.

Lemma LinkedList_MoveToFront_chain {T} e (l : List T) :
  NoDup (chain l) → e ∈ chain l →
  chain (MoveToFront e l) = e :: unlink e (chain l).
Proof.
  intros Hnd Hin. unfold MoveToFront. case_decide as Hd; [done|].
  apply not_and_l in Hd as [Hd|Hd]; [done|].
  apply dec_stable in Hd. unfold Front in Hd.
  destruct (chain l) as [|x c] eqn:Hc; simplify_eq/=.
  apply NoDup_cons in Hnd as [Hx _].
  unfold unlink. rewrite filter_cons_False by naive_solver.
  fold (unlink e c). by rewrite unlink_notin.
Qed.

Lemma LinkedList_MoveToBack_chain {T} e (l : List T) :
  NoDup (chain l) → e ∈ chain l →
  chain (MoveToBack e l) = unlink e (chain l) ++ [e].
Proof.
  intros Hnd Hin. unfold MoveToBack. case_decide as Hd; [done|].
  apply not_and_l in Hd as [Hd|Hd]; [done|].
  apply dec_stable in Hd. unfold Back in Hd.
  apply last_Some in Hd as [c Hc]. rewrite Hc in Hnd |- *.
  replace (c ++ [e]) with (c ++ e :: []) in * by done.
  rewrite unlink_split by done. by rewrite app_nil_r.
Qed.

Lemma set_chain_id {T} (l : List T) : set_chain (chain l) l = l.
Proof. by destruct l. Qed.

Lemma LinkedList_MoveToFront_reorder {T} e (l : List T) :
  NoDup (chain l) →
  ∃ c, MoveToFront e l = set_chain c l ∧ c ≡ₚ chain l.
Proof.
  intros Hnd. unfold MoveToFront. case_decide as Hd.
  - eexists. split; [done|]. apply unlink_perm; tauto.
  - exists (chain l). by rewrite set_chain_id.
Qed.

Lemma LinkedList_MoveToBack_reorder {T} e (l : List T) :
  NoDup (chain l) →
  ∃ c, MoveToBack e l = set_chain c l ∧ c ≡ₚ chain l.
Proof.
  intros Hnd. unfold MoveToBack. case_decide as Hd.
  - eexists. split; [done|].
    rewrite <-Permutation_cons_append. apply unlink_perm; tauto.
  - exists (chain l). by rewrite set_chain_id.
Qed.

Lemma LinkedList_MoveAfter_reorder {T} e mark (l : List T) :
  NoDup (chain l) →
  ∃ c, MoveAfter e mark l = set_chain c l ∧ c ≡ₚ chain l.
Proof.
  intros Hnd. unfold MoveAfter. case_decide as Hd.
  - destruct Hd as (He & Hm & Hne). eexists. split; [done|].
    rewrite link_after_perm by (apply elem_of_unlink; auto).
    by apply unlink_perm.
  - exists (chain l). by rewrite set_chain_id.
Qed.

Lemma LinkedList_MoveBefore_reorder {T} e mark (l : List T) :
  NoDup (chain l) →
  ∃ c, MoveBefore e mark l = set_chain c l ∧ c ≡ₚ chain l.
Proof.
  intros Hnd. unfold MoveBefore. case_decide as Hd.
  - destruct Hd as (He & Hm & Hne). eexists. split; [done|].
    rewrite link_before_perm by (apply elem_of_unlink; auto).
    by apply unlink_perm.
  - exists (chain l). by rewrite set_chain_id.
Qed.

End chains.

(** ** The invariant *)

Section invariant.
Context {K : Type} `{Countable K} {V : Type}.
Implicit Types (o : @OrderedMap K _ _ V) (k : K) (v : V) (p : loc).

Lemma load_Some o p kv : heap o !! p = Some kv → load o p = Ret kv.
Proof. unfold load. by intros ->. Qed.

Lemma store_Some o p kv kv' :
  heap o !! p = Some kv →
  store p kv' o = Ret (set_heap (<[p := kv']> (heap o)) o).
Proof. unfold store. intros Hp. by rewrite (load_Some _ _ _ Hp). Qed.

Lemma wf_New : wf (New : @OrderedMap K _ _ V).
Proof.
  split; simpl.
  - constructor.
  - intros k p Hk. by rewrite lookup_empty in Hk.
  - intros e He. by apply elem_of_nil in He.
  - intros e He. by apply elem_of_nil in He.
  - intros p [kv Hp]. by rewrite lookup_empty in Hp.
Qed.

Lemma wf_entry_at o e :
  wf o → e ∈ LinkedList.chain (order o) →
  ∃ p k v, LinkedList.values (order o) !! e = Some (Some p)
           ∧ heap o !! p = Some (mkPair k v (Some e))
           ∧ items o !! k = Some p
           ∧ entry_at o e = Some (k, v).
Proof.
  intros Hwf He. destruct (wf_chain _ Hwf e He) as (p & k & v & Hv & Hp & Hk).
  exists p, k, v. repeat split; try done.
  unfold entry_at, pair_at. by rewrite Hv, Hp.
Qed.

Lemma wf_key_inj o e1 e2 k v1 v2 :
  wf o → e1 ∈ LinkedList.chain (order o) → e2 ∈ LinkedList.chain (order o) →
  entry_at o e1 = Some (k, v1) → entry_at o e2 = Some (k, v2) → e1 = e2.
Proof.
  intros Hwf H1 H2 E1 E2.
  destruct (wf_entry_at _ _ Hwf H1) as (p1 & k1 & w1 & _ & Hp1 & Hk1 & E1').
  destruct (wf_entry_at _ _ Hwf H2) as (p2 & k2 & w2 & _ & Hp2 & Hk2 & E2').
  simplify_eq. congruence.
Qed.

Lemma wf_items_entry o k p :
  wf o → items o !! k = Some p →
  ∃ v e, heap o !! p = Some (mkPair k v (Some e))
         ∧ e ∈ LinkedList.chain (order o) ∧ entry_at o e = Some (k, v).
Proof.
  intros Hwf Hk. destruct (wf_items _ Hwf k p Hk) as (v & e & Hp & He & Hv).
  exists v, e. repeat split; try done.
  unfold entry_at, pair_at. by rewrite Hv, Hp.
Qed.

Lemma entries_total o c :
  wf o → c ⊆ LinkedList.chain (order o) →
  length (omap (entry_at o) c) = length c.
Proof.
  intros Hwf. induction c as [|e c IH]; intros Hsub; [done|].
  destruct (wf_entry_at o e Hwf) as (p & k & v & _ & _ & _ & He);
    [apply Hsub; left|].
  simpl. rewrite He. simpl. f_equal. apply IH. set_solver.
Qed.

Lemma entries_length o : wf o → length (entries o) = LinkedList.Len (order o).
Proof. intros Hwf. by apply entries_total. Qed.

(** The keys met on the walk are exactly the indexed keys. *)
Lemma elem_of_entries_keys o k :
  wf o → k ∈ (entries o).*1 ↔ is_Some (items o !! k).
Proof.
  intros Hwf. rewrite list_elem_of_fmap. split.
  - intros ([k' v] & -> & Hin). apply list_elem_of_omap in Hin as (e & He & Hat).
    destruct (wf_entry_at _ _ Hwf He) as (p & k2 & v2 & _ & _ & Hk & Hat').
    simplify_eq. by exists p.
  - intros [p Hk]. destruct (wf_items_entry _ _ _ Hwf Hk) as (v & e & _ & He & Hat).
    exists (k, v). split; [done|]. apply list_elem_of_omap. by exists e.
Qed.

Lemma entries_keys_NoDup_sub o c :
  wf o → NoDup c → c ⊆ LinkedList.chain (order o) → NoDup (omap (entry_at o) c).*1.
Proof.
  intros Hwf. induction c as [|e c IH]; intros Hnd Hsub; [constructor|].
  apply NoDup_cons in Hnd as [Hec Hnd].
  destruct (wf_entry_at o e Hwf) as (p & k & v & _ & _ & _ & He);
    [apply Hsub; left|].
  simpl. rewrite He. simpl. constructor; [|apply IH; [done|set_solver]].
  rewrite list_elem_of_fmap. intros ([k' v'] & Hk & Hin). simpl in Hk. subst k'.
  apply list_elem_of_omap in Hin as (e' & He' & Hat').
  assert (e = e') as ->; [|done].
  eapply wf_key_inj; eauto; apply Hsub; [left|by right].
Qed.

Lemma entries_keys_NoDup o : wf o → NoDup (entries o).*1.
Proof. intros Hwf. apply entries_keys_NoDup_sub; [done|by apply wf_nodup|done]. Qed.

(** Relinking the same elements in another order keeps the invariant. *)
Lemma wf_reorder o c :
  wf o → c ≡ₚ LinkedList.chain (order o) → wf (set_order (LinkedList.set_chain c (order o)) o).
Proof.
  intros Hwf Hperm. split; simpl.
  - rewrite Hperm. by apply wf_nodup.
  - intros k p Hk. destruct (wf_items _ Hwf k p Hk) as (v & e & ? & ? & ?).
    exists v, e. by rewrite Hperm.
  - intros e He. rewrite Hperm in He. by apply wf_chain.
  - intros e He. rewrite Hperm in He. by apply wf_fresh.
  - by apply wf_brk.
Qed.

End invariant.

(** ** What each operation does to a well-formed map *)

Section operations.
Context {K : Type} `{Countable K} {V : Type}.
Implicit Types (o : @OrderedMap K _ _ V) (k : K) (v : V) (p : loc).

Lemma insertKeyValuePair_eq k v o :
  insertKeyValuePair k v o = Ret (brk o, inserted k v o).
Proof.
  unfold insertKeyValuePair, alloc, LinkedList.PushBack, load, store, load.
  cbn. rewrite lookup_insert_eq. cbn.
  unfold inserted, set_heap. cbn. by rewrite insert_insert_eq.
Qed.

Lemma wf_inserted k v o :
  wf o → items o !! k = None → wf (inserted k v o).
Proof.
  intros Hwf Hk. split; simpl.
  - apply NoDup_app. split; [by apply wf_nodup|]. split; [|apply NoDup_singleton].
    intros e He ->%list_elem_of_singleton. apply (wf_fresh _ Hwf) in He. lia.
  - intros k' p. rewrite lookup_insert. case_decide as Hkk.
    + intros [= <-]. subst k'. eexists v, _. rewrite !lookup_insert_eq.
      split; [done|]. split; [|done]. apply elem_of_app. right. left.
    + intros Hk'. destruct (wf_items _ Hwf k' p Hk') as (v' & e & Hp & He & Hv).
      exists v', e.
      assert (p < brk o) by (apply (wf_brk _ Hwf); eauto).
      assert (e < LinkedList.fresh (order o)) by by apply (wf_fresh _ Hwf).
      rewrite !lookup_insert_ne by lia. split; [done|]. split; [|done].
      apply elem_of_app. by left.
  - intros e [He| ->%list_elem_of_singleton]%elem_of_app.
    + destruct (wf_chain _ Hwf e He) as (p & k' & v' & Hv & Hp & Hk').
      exists p, k', v'.
      assert (p < brk o) by (apply (wf_brk _ Hwf); eauto).
      assert (e < LinkedList.fresh (order o)) by by apply (wf_fresh _ Hwf).
      rewrite !lookup_insert_ne by (try lia; congruence). done.
    + exists (brk o), k, v. by rewrite !lookup_insert_eq.
  - intros e [He| ->%list_elem_of_singleton]%elem_of_app; [|lia].
    apply (wf_fresh _ Hwf) in He. lia.
  - intros p. rewrite lookup_insert. case_decide; [lia|].
    intros Hp%(wf_brk _ Hwf). lia.
Qed.

Lemma entry_at_inserted k v o e :
  wf o → e ∈ LinkedList.chain (order o) →
  entry_at (inserted k v o) e = entry_at o e.
Proof.
  intros Hwf He.
  destruct (wf_chain _ Hwf e He) as (p & k' & v' & Hv & Hp & Hk').
  assert (p < brk o) by (apply (wf_brk _ Hwf); eauto).
  assert (e < LinkedList.fresh (order o)) by by apply (wf_fresh _ Hwf).
  unfold entry_at, pair_at. simpl.
  rewrite lookup_insert_ne by lia. rewrite Hv.
  by rewrite lookup_insert_ne by lia.
Qed.

Lemma entries_inserted k v o :
  wf o → entries (inserted k v o) = entries o ++ [(k, v)].
Proof.
  intros Hwf. unfold entries at 1. simpl. rewrite omap_app. f_equal.
  - apply list_omap_ext. apply Forall2_same_length_lookup_2; [done|].
    intros i e e' He He'. simplify_eq.
    apply entry_at_inserted; [done|]. by eapply list_elem_of_lookup_2.
  - simpl. unfold entry_at, pair_at. simpl. by rewrite !lookup_insert_eq.
Qed.

Lemma wf_moved o l :
  wf o →
  (∃ c, l = LinkedList.set_chain c (order o) ∧ c ≡ₚ LinkedList.chain (order o)) →
  wf (set_order l o).
Proof. intros Hwf (c & -> & Hc). by apply wf_reorder. Qed.

(** [Set] on a present key: the pair is overwritten where it lies. *)
Lemma Set_present k v o p :
  wf o → items o !! k = Some p →
  ∃ v0 e, heap o !! p = Some (mkPair k v0 (Some e))
          ∧ Set_ k v o
            = Ret (set_heap (<[p := mkPair k v (Some e)]> (heap o)) o).
Proof.
  intros Hwf Hk. destruct (wf_items _ Hwf k p Hk) as (v0 & e & Hp & _ & _).
  exists v0, e. split; [done|]. unfold Set_. rewrite Hk.
  rewrite (load_Some _ _ _ Hp). cbn. by rewrite (store_Some _ _ _ _ Hp).
Qed.

Lemma Set_absent k v o :
  items o !! k = None → Set_ k v o = Ret (inserted k v o).
Proof. intros Hk. unfold Set_. by rewrite Hk, insertKeyValuePair_eq. Qed.

Lemma wf_overwrite k v v0 e p o :
  wf o → heap o !! p = Some (mkPair k v0 (Some e)) →
  wf (set_heap (<[p := mkPair k v (Some e)]> (heap o)) o).
Proof.
  intros Hwf Hp. split; simpl.
  - by apply wf_nodup.
  - intros k' p' Hk'. destruct (wf_items _ Hwf k' p' Hk') as (v' & e' & Hp' & He' & Hv').
    rewrite lookup_insert. case_decide as Hpp.
    + subst p'. simplify_eq. by eexists v, _.
    + by exists v', e'.
  - intros e' He'. destruct (wf_chain _ Hwf e' He') as (p' & k' & v' & Hv' & Hp' & Hk').
    exists p'. rewrite lookup_insert. case_decide as Hpp.
    + subst p'. simplify_eq. by eexists _, v.
    + by exists k', v'.
  - by apply wf_fresh.
  - intros p'. rewrite lookup_insert. case_decide as Hpp.
    + subst p'. intros _. apply (wf_brk _ Hwf). eauto.
    + by apply wf_brk.
Qed.

Lemma wf_Set k v o : wf o → ∃ o', Set_ k v o = Ret o' ∧ wf o'.
Proof.
  intros Hwf. destruct (items o !! k) as [p|] eqn:Hk.
  - destruct (Set_present k v o p Hwf Hk) as (v0 & e & Hp & ->).
    eexists. split; [done|]. by eapply wf_overwrite.
  - rewrite Set_absent by done. eexists. split; [done|]. by apply wf_inserted.
Qed.

(** The map after removing the pair at [p], linked as [e], under [k]. *)
Lemma Remove_present k o p :
  wf o → items o !! k = Some p →
  ∃ v e, heap o !! p = Some (mkPair k v (Some e))
         ∧ e ∈ LinkedList.chain (order o)
         ∧ entry_at o e = Some (k, v)
         ∧ Remove k o = Ret (Some p, true, removed k e o).
Proof.
  intros Hwf Hk. destruct (wf_items_entry _ _ _ Hwf Hk) as (v & e & Hp & He & Hat).
  exists v, e. repeat split; try done. unfold Remove. rewrite Hk.
  unfold load. cbn. rewrite Hp. cbn.
  unfold LinkedList.Remove. by rewrite decide_True.
Qed.

Lemma wf_removed k v e p o :
  wf o → items o !! k = Some p → heap o !! p = Some (mkPair k v (Some e)) →
  wf (removed k e o).
Proof.
  intros Hwf Hk Hp. split; simpl.
  - apply NoDup_filter. by apply wf_nodup.
  - intros k' p'. rewrite lookup_delete. case_decide as Hkk; [done|].
    intros Hk'. destruct (wf_items _ Hwf k' p' Hk') as (v' & e' & Hp' & He' & Hv').
    exists v', e'. split; [done|]. split; [|done].
    apply elem_of_unlink. split; [|done]. intros ->.
    destruct (wf_chain _ Hwf e He') as (p2 & k2 & v2 & Hv2 & Hp2 & Hk2).
    simplify_eq. destruct (wf_items _ Hwf k p Hk) as (v3 & e3 & Hp3 & He3 & Hv3).
    simplify_eq.
  - intros e' [Hne He']%elem_of_unlink.
    destruct (wf_chain _ Hwf e' He') as (p' & k' & v' & Hv' & Hp' & Hk').
    exists p', k', v'. split; [done|]. split; [done|].
    rewrite lookup_delete_ne; [done|]. intros <-. simplify_eq.
  - intros e' [_ He']%elem_of_unlink. by apply wf_fresh.
  - by apply wf_brk.
Qed.

Lemma wf_Remove k o : wf o → ∃ r o', Remove k o = Ret (r, o') ∧ wf o'.
Proof.
  intros Hwf. destruct (items o !! k) as [p|] eqn:Hk.
  - destruct (Remove_present k o p Hwf Hk) as (v & e & Hp & He & _ & ->).
    eexists _, _. split; [done|]. by eapply wf_removed.
  - unfold Remove. rewrite Hk. by eexists _, _.
Qed.

Lemma MoveToFront_present k o p :
  wf o → items o !! k = Some p →
  ∃ v e, heap o !! p = Some (mkPair k v (Some e))
         ∧ e ∈ LinkedList.chain (order o)
         ∧ entry_at o e = Some (k, v)
         ∧ MoveToFront k o
           = Ret (None, set_order (LinkedList.MoveToFront e (order o)) o).
Proof.
  intros Hwf Hk. destruct (wf_items_entry _ _ _ Hwf Hk) as (v & e & Hp & He & Hat).
  exists v, e. repeat split; try done. unfold MoveToFront. rewrite Hk.
  by rewrite (load_Some _ _ _ Hp).
Qed.

Lemma MoveToBack_present k o p :
  wf o → items o !! k = Some p →
  ∃ v e, heap o !! p = Some (mkPair k v (Some e))
         ∧ e ∈ LinkedList.chain (order o)
         ∧ entry_at o e = Some (k, v)
         ∧ MoveToBack k o
           = Ret (None, set_order (LinkedList.MoveToBack e (order o)) o).
Proof.
  intros Hwf Hk. destruct (wf_items_entry _ _ _ Hwf Hk) as (v & e & Hp & He & Hat).
  exists v, e. repeat split; try done. unfold MoveToBack. rewrite Hk.
  by rewrite (load_Some _ _ _ Hp).
Qed.

Lemma wf_MoveToFront k o : wf o → ∃ r o', MoveToFront k o = Ret (r, o') ∧ wf o'.
Proof.
  intros Hwf. destruct (items o !! k) as [p|] eqn:Hk.
  - destruct (MoveToFront_present k o p Hwf Hk) as (v & e & _ & _ & _ & ->).
    eexists _, _. split; [done|].
    apply wf_moved, LinkedList_MoveToFront_reorder; [done|by apply wf_nodup].
  - unfold MoveToFront. rewrite Hk. by eexists _, _.
Qed.

Lemma wf_MoveToBack k o : wf o → ∃ r o', MoveToBack k o = Ret (r, o') ∧ wf o'.
Proof.
  intros Hwf. destruct (items o !! k) as [p|] eqn:Hk.
  - destruct (MoveToBack_present k o p Hwf Hk) as (v & e & _ & _ & _ & ->).
    eexists _, _. split; [done|].
    apply wf_moved, LinkedList_MoveToBack_reorder; [done|by apply wf_nodup].
  - unfold MoveToBack. rewrite Hk. by eexists _, _.
Qed.

Lemma wf_MoveAfter k after o :
  wf o → ∃ r o', MoveAfter k after o = Ret (r, o') ∧ wf o'.
Proof.
  intros Hwf. unfold MoveAfter.
  destruct (items o !! k) as [p|] eqn:Hk; [|by eexists _, _].
  destruct (items o !! after) as [q|] eqn:Ha; [|by eexists _, _].
  destruct (wf_items _ Hwf k p Hk) as (v & e & Hp & _ & _).
  destruct (wf_items _ Hwf after q Ha) as (w & m & Hq & _ & _).
  rewrite (load_Some _ _ _ Hp). cbn. rewrite (load_Some _ _ _ Hq). cbn.
  eexists _, _. split; [done|].
  apply wf_moved, LinkedList_MoveAfter_reorder; [done|by apply wf_nodup].
Qed.

Lemma wf_MoveBefore k before o :
  wf o → ∃ r o', MoveBefore k before o = Ret (r, o') ∧ wf o'.
Proof.
  intros Hwf. unfold MoveBefore.
  destruct (items o !! k) as [p|] eqn:Hk; [|by eexists _, _].
  destruct (items o !! before) as [q|] eqn:Ha; [|by eexists _, _].
  destruct (wf_items _ Hwf k p Hk) as (v & e & Hp & _ & _).
  destruct (wf_items _ Hwf before q Ha) as (w & m & Hq & _ & _).
  rewrite (load_Some _ _ _ Hp). cbn. rewrite (load_Some _ _ _ Hq). cbn.
  eexists _, _. split; [done|].
  apply wf_moved, LinkedList_MoveBefore_reorder; [done|by apply wf_nodup].
Qed.

(** A pair that was there before [insertKeyValuePair] is still there. *)
Lemma heap_inserted k v o q kv :
  wf o → heap o !! q = Some kv → heap (inserted k v o) !! q = Some kv.
Proof.
  intros Hwf Hq. simpl.
  assert (q < brk o) by (apply (wf_brk _ Hwf); eauto).
  by rewrite lookup_insert_ne by lia.
Qed.

Lemma wf_InsertAfter k v after o :
  wf o → ∃ r o', InsertAfter k v after o = Ret (r, o') ∧ wf o'.
Proof.
  intros Hwf. unfold InsertAfter.
  destruct (items o !! after) as [q|] eqn:Ha; [|by eexists _, _].
  destruct (wf_items _ Hwf after q Ha) as (w & m & Hq & _ & _).
  destruct (items o !! k) as [p|] eqn:Hk.
  { destruct (wf_items _ Hwf k p Hk) as (v0 & e & Hp & _ & _).
    rewrite (load_Some _ _ _ Hp). by eexists _, _. }
  case_decide as Hka.
  { rewrite (load_Some _ _ _ Hq). by eexists _, _. }
  rewrite insertKeyValuePair_eq. cbn.
  pose proof (wf_inserted k v o Hwf Hk) as Hwf'.
  rewrite (load_Some (inserted k v o) (brk o)
             (mkPair k v (Some (LinkedList.fresh (order o)))))
    by (simpl; by rewrite lookup_insert_eq).
  cbn. rewrite (load_Some _ _ _ (heap_inserted k v o q _ Hwf Hq)). cbn.
  eexists _, _. split; [done|].
  apply wf_moved, LinkedList_MoveAfter_reorder; [done|by apply wf_nodup].
Qed.

Lemma wf_InsertBefore k v before o :
  wf o → ∃ r o', InsertBefore k v before o = Ret (r, o') ∧ wf o'.
Proof.
  intros Hwf. unfold InsertBefore.
  destruct (items o !! before) as [q|] eqn:Ha; [|by eexists _, _].
  destruct (wf_items _ Hwf before q Ha) as (w & m & Hq & _ & _).
  destruct (items o !! k) as [p|] eqn:Hk.
  { destruct (wf_items _ Hwf k p Hk) as (v0 & e & Hp & _ & _).
    rewrite (load_Some _ _ _ Hp). by eexists _, _. }
  case_decide as Hka.
  { rewrite (load_Some _ _ _ Hq). by eexists _, _. }
  rewrite insertKeyValuePair_eq. cbn.
  pose proof (wf_inserted k v o Hwf Hk) as Hwf'.
  rewrite (load_Some (inserted k v o) (brk o)
             (mkPair k v (Some (LinkedList.fresh (order o)))))
    by (simpl; by rewrite lookup_insert_eq).
  cbn. rewrite (load_Some _ _ _ (heap_inserted k v o q _ Hwf Hq)). cbn.
  eexists _, _. split; [done|].
  apply wf_moved, LinkedList_MoveBefore_reorder; [done|by apply wf_nodup].
Qed.

(** Every public operation returns, and returns a well-formed map. *)
Lemma wf_step c o : wf o → ∃ o', step c o = Ret o' ∧ wf o'.
Proof.
  intros Hwf. destruct c as [k v|k|k|k|k a|k b|k v a|k v b]; simpl.
  - by apply wf_Set.
  - destruct (wf_Remove k o Hwf) as (r & o' & -> & ?). by exists o'.
  - destruct (wf_MoveToFront k o Hwf) as (r & o' & -> & ?). by exists o'.
  - destruct (wf_MoveToBack k o Hwf) as (r & o' & -> & ?). by exists o'.
  - destruct (wf_MoveAfter k a o Hwf) as (r & o' & -> & ?). by exists o'.
  - destruct (wf_MoveBefore k b o Hwf) as (r & o' & -> & ?). by exists o'.
  - destruct (wf_InsertAfter k v a o Hwf) as (r & o' & -> & ?). by exists o'.
  - destruct (wf_InsertBefore k v b o Hwf) as (r & o' & -> & ?). by exists o'.
Qed.

Lemma wf_run cs o : wf o → ∃ o', run cs o = Ret o' ∧ wf o'.
Proof.
  revert o. induction cs as [|c cs IH]; intros o Hwf; simpl; [by exists o|].
  destruct (wf_step c o Hwf) as (o1 & -> & Hwf1). by apply IH.
Qed.

End operations.

(** ** Walking the order with a cursor *)

Section iteration.
Context {K : Type} `{Countable K} {V : Type}.
Implicit Types (o : @OrderedMap K _ _ V) (k : K) (v : V) (p : loc).

Lemma Next_linked o c1 e c2 :
  wf o → LinkedList.chain (order o) = c1 ++ e :: c2 →
  ∃ p k v, heap o !! p = Some (mkPair k v (Some e))
           ∧ entry_at o e = Some (k, v)
           ∧ Next o {| pos := Some e |} = Ret (Some p, {| pos := head c2 |}).
Proof.
  intros Hwf Hc.
  destruct (wf_entry_at o e Hwf) as (p & k & v & Hv & Hp & _ & Hat).
  { rewrite Hc. apply elem_of_app. right. left. }
  exists p, k, v. repeat split; try done.
  unfold Next, LinkedList.Value, LinkedList.Next. simpl. rewrite Hv. cbn.
  rewrite Hc, LinkedList_successor_split; [done|].
  rewrite <-Hc. by apply wf_nodup.
Qed.

Lemma Keys_loop_entries o c1 c2 acc :
  wf o → LinkedList.chain (order o) = c1 ++ c2 →
  Keys_loop (S (length c2)) o {| pos := head c2 |} acc
  = Ret (acc ++ (omap (entry_at o) c2).*1).
Proof.
  intros Hwf. revert c1 acc. induction c2 as [|e c2 IH]; intros c1 acc Hc.
  - simpl. by rewrite app_nil_r.
  - destruct (Next_linked o c1 e c2 Hwf Hc) as (p & k & v & Hp & Hat & HN).
    change (Keys_loop (S (length (e :: c2))) o {| pos := head (e :: c2) |} acc)
      with ('(kvp, it) ← Next o {| pos := Some e |};
            match kvp with
            | None => Ret acc
            | Some p => kv ← load o p;
                        Keys_loop (S (length c2)) o it (acc ++ [Key kv])
            end).
    rewrite HN. cbn [mbind outcome_bind].
    rewrite (load_Some _ _ _ Hp). cbn [mbind outcome_bind Key Value].
    rewrite (IH (c1 ++ [e])) by (by rewrite <-app_assoc).
    cbn [omap list_omap]. rewrite Hat. cbn. by rewrite <-app_assoc.
Qed.

(** [Keys] returns the keys of the walk. *)
Lemma Keys_entries o : wf o → Keys o = Ret (entries o).*1.
Proof.
  intros Hwf. unfold Keys, OrderedMap_Iterator, LinkedList.Front, LinkedList.Len.
  by rewrite (Keys_loop_entries o [] _ [] Hwf).
Qed.

Lemma calls_exhausted o j :
  calls j o {| pos := None |} = Ret (replicate j None).
Proof. induction j as [|j IH]; [done|]. cbn. by rewrite IH. Qed.

Lemma calls_entries o c1 c2 j :
  wf o → LinkedList.chain (order o) = c1 ++ c2 →
  calls (length c2 + j) o {| pos := head c2 |}
  = Ret ((Some <$> omap (entry_at o) c2) ++ replicate j None).
Proof.
  intros Hwf. revert c1. induction c2 as [|e c2 IH]; intros c1 Hc.
  - apply calls_exhausted.
  - destruct (Next_linked o c1 e c2 Hwf Hc) as (p & k & v & Hp & Hat & HN).
    change (calls (length (e :: c2) + j) o {| pos := head (e :: c2) |})
      with ('(kvp, it) ← Next o {| pos := Some e |};
            r ← match kvp with
                | None => Ret None
                | Some p => kv ← load o p; Ret (Some (Key kv, Value kv))
                end;
            rest ← calls (length c2 + j) o it;
            Ret (r :: rest)).
    rewrite HN. cbn [mbind outcome_bind].
    rewrite (load_Some _ _ _ Hp). cbn [mbind outcome_bind Key Value].
    rewrite (IH (c1 ++ [e])) by (by rewrite <-app_assoc).
    cbn [omap list_omap]. by rewrite Hat.
Qed.

End iteration.

(** ** Maps built by the public operations *)

Section reachable.
Context {K : Type} `{Countable K} {V : Type}.
Implicit Types (o : @OrderedMap K _ _ V) (k : K) (v : V) (p : loc).

Lemma wf_reachable cs o : run cs New = Ret o → wf o.
Proof.
  intros Hrun. destruct (wf_run cs New wf_New) as (o' & Hrun' & Hwf).
  congruence.
Qed.

(** C3. Whatever sequence of [Set], [Remove], [Move...] and [Insert...]
    calls is made on a new map, the calls all return, and in the map they
    leave the keys of the index [items] are exactly the keys that [Keys]
    collects by walking [order] front to back, with no key twice on either
    side. *)
Theorem index_order_bijection (cs : list (@op K V)) :
  ∃ o ks, run cs New = Ret o
          ∧ Keys o = Ret ks
          ∧ NoDup ks
          ∧ NoDup (map_to_list (items o)).*1
          ∧ (list_to_set ks : gset K) = dom (items o).
Proof.
  destruct (wf_run cs New wf_New) as (o & Hrun & Hwf).
  exists o, (entries o).*1. split; [done|].
  split; [by apply Keys_entries|].
  split; [by apply entries_keys_NoDup|].
  split; [apply NoDup_fst_map_to_list|].
  apply set_eq. intros k.
  by rewrite elem_of_list_to_set, elem_of_dom, elem_of_entries_keys.
Qed.

(** C10. On a map that is not mutated meanwhile, successive [Next] calls
    on the cursor given by [Iterator] hand out the map's entries in order
    and then nil, however many further calls are made; on an empty map the
    first call already returns nil; and a cursor that has returned nil
    returns nil again. *)
Theorem Iterator_yields_entries_then_nil cs o :
  run cs New = Ret o →
  (∀ j, calls (length (entries o) + j) o (OrderedMap_Iterator o)
        = Ret ((Some <$> entries o) ++ replicate j None))
  ∧ (LinkedList.Len (order o) = 0 →
     Next o (OrderedMap_Iterator o) = Ret (None, OrderedMap_Iterator o))
  ∧ (∀ it it', Next o it = Ret (None, it') →
               Next o it' = Ret (None, it')).
Proof.
  intros Hwf%wf_reachable. split; [|split].
  - intros j. rewrite entries_length by done.
    apply (calls_entries o [] _ j Hwf). done.
  - unfold LinkedList.Len, OrderedMap_Iterator, LinkedList.Front.
    intros Hlen%nil_length_inv. by rewrite Hlen.
  - intros [[e|]] it'; unfold Next; simpl; [|by intros [= <-]].
    destruct (LinkedList.Value (order o) e) as [[q|]|] eqn:Hv; cbn; [done| |done].
    intros [= <-]. simpl. by rewrite Hv.
Qed.

End reachable.

(** ** The walk after an operation *)

Section effects.
Context {K : Type} `{Countable K} {V : Type}.
Implicit Types (o : @OrderedMap K _ _ V) (k : K) (v : V) (p : loc).
Implicit Types es : list (K * V).

Lemma Get_Some_inv o k v :
  wf o → Get k o = Ret (Some v, true) →
  ∃ p e, items o !! k = Some p
         ∧ heap o !! p = Some (mkPair k v (Some e))
         ∧ e ∈ LinkedList.chain (order o)
         ∧ entry_at o e = Some (k, v).
Proof.
  intros Hwf. unfold Get. destruct (items o !! k) as [p|] eqn:Hk; [|done].
  destruct (wf_items_entry _ _ _ Hwf Hk) as (v' & e & Hp & He & Hat).
  rewrite (load_Some _ _ _ Hp). cbn. intros [= <-]. by exists p, e.
Qed.

Lemma Get_None_inv o k :
  wf o → Get k o = Ret (None, false) → items o !! k = None.
Proof.
  intros Hwf. unfold Get. destruct (items o !! k) as [p|] eqn:Hk; [|done].
  destruct (wf_items _ Hwf k p Hk) as (v' & e & Hp & _).
  by rewrite (load_Some _ _ _ Hp).
Qed.

Lemma Get_frame o o' k :
  items o' = items o → heap o' = heap o → Get k o' = Get k o.
Proof. unfold Get, load. by intros -> ->. Qed.

Lemma omap_entry_unlink o e k v c :
  wf o → c ⊆ LinkedList.chain (order o) →
  e ∈ LinkedList.chain (order o) → entry_at o e = Some (k, v) →
  omap (entry_at o) (LinkedList.unlink e c)
  = filter (λ kv, kv.1 ≠ k) (omap (entry_at o) c).
Proof.
  intros Hwf Hsub He Hat. induction c as [|x c IH]; [done|].
  assert (x ∈ LinkedList.chain (order o)) as Hx by (apply Hsub; left).
  destruct (wf_entry_at o x Hwf Hx) as (p' & k' & v' & _ & _ & _ & Hat').
  assert (c ⊆ LinkedList.chain (order o)) as Hc by set_solver.
  unfold LinkedList.unlink in *. cbn [omap list_omap]. rewrite Hat'.
  destruct (decide (x = e)) as [->|Hne].
  - simplify_eq. rewrite filter_cons_False by naive_solver.
    rewrite filter_cons_False by naive_solver. by apply IH.
  - assert (k' ≠ k) as Hk by (intros ->; apply Hne; by eapply wf_key_inj).
    rewrite filter_cons_True by done. rewrite filter_cons_True by done.
    cbn [omap list_omap]. rewrite Hat'. f_equal. by apply IH.
Qed.

Lemma entries_removed o k e v :
  wf o → e ∈ LinkedList.chain (order o) → entry_at o e = Some (k, v) →
  entries (removed k e o) = filter (λ kv, kv.1 ≠ k) (entries o).
Proof. intros Hwf He Hat. by apply (omap_entry_unlink o e k v). Qed.

Lemma length_unlink e (c : list LinkedList.Element) :
  NoDup c → e ∈ c → S (length (LinkedList.unlink e c)) = length c.
Proof.
  intros Hnd He. by rewrite <-(Permutation_length (unlink_perm e c Hnd He)).
Qed.

Lemma entries_moved_front o k e v :
  wf o → e ∈ LinkedList.chain (order o) → entry_at o e = Some (k, v) →
  entries (set_order (LinkedList.MoveToFront e (order o)) o)
  = (k, v) :: filter (λ kv, kv.1 ≠ k) (entries o).
Proof.
  intros Hwf He Hat.
  destruct (LinkedList_MoveToFront_reorder e (order o) (wf_nodup _ Hwf))
    as (c & Heq & _).
  pose proof (LinkedList_MoveToFront_chain e (order o) (wf_nodup _ Hwf) He) as Hc.
  rewrite Heq in Hc |- *. simpl in Hc. subst c.
  change (entries (set_order _ o)) with
    (omap (entry_at o) (e :: LinkedList.unlink e (LinkedList.chain (order o)))).
  cbn [omap list_omap]. rewrite Hat. f_equal. by apply (omap_entry_unlink o e k v).
Qed.

Lemma entries_moved_back o k e v :
  wf o → e ∈ LinkedList.chain (order o) → entry_at o e = Some (k, v) →
  entries (set_order (LinkedList.MoveToBack e (order o)) o)
  = filter (λ kv, kv.1 ≠ k) (entries o) ++ [(k, v)].
Proof.
  intros Hwf He Hat.
  destruct (LinkedList_MoveToBack_reorder e (order o) (wf_nodup _ Hwf))
    as (c & Heq & _).
  pose proof (LinkedList_MoveToBack_chain e (order o) (wf_nodup _ Hwf) He) as Hc.
  rewrite Heq in Hc |- *. simpl in Hc. subst c.
  change (entries (set_order _ o)) with
    (omap (entry_at o) (LinkedList.unlink e (LinkedList.chain (order o)) ++ [e])).
  rewrite omap_app. cbn [omap list_omap]. rewrite Hat. f_equal.
  by apply (omap_entry_unlink o e k v).
Qed.

Lemma filter_key_absent es k :
  k ∉ es.*1 → filter (λ kv, kv.1 ≠ k) es = es.
Proof.
  induction es as [|[k' v'] es IH]; [done|]. simpl.
  intros [Hne Hnin]%not_elem_of_cons.
  rewrite filter_cons_True by (simpl; congruence). f_equal. by apply IH.
Qed.

(** Pulling the one entry of a key to either end permutes the walk. *)
Lemma filter_key_perm es k v :
  NoDup es.*1 → (k, v) ∈ es →
  (k, v) :: filter (λ kv, kv.1 ≠ k) es ≡ₚ es.
Proof.
  induction es as [|[k' v'] es IH]; intros Hnd Hin; [by apply elem_of_nil in Hin|].
  simpl in Hnd. apply NoDup_cons in Hnd as [Hk' Hnd].
  apply elem_of_cons in Hin as [[= <- <-]|Hin].
  - rewrite filter_cons_False by naive_solver. f_equiv.
    by rewrite filter_key_absent.
  - assert (k' ≠ k) as Hne.
    { intros ->. apply Hk'. apply list_elem_of_fmap. by exists (k, v). }
    rewrite filter_cons_True by done. rewrite Permutation_swap. f_equiv.
    by apply IH.
Qed.

End effects.

Section overwrite.
Context {K : Type} `{Countable K} {V : Type}.
Implicit Types (o : @OrderedMap K _ _ V) (k : K) (v : V) (p : loc).

Lemma entry_at_overwrite o k v v0 e p x :
  wf o → items o !! k = Some p →
  heap o !! p = Some (mkPair k v0 (Some e)) →
  x ∈ LinkedList.chain (order o) →
  entry_at (set_heap (<[p := mkPair k v (Some e)]> (heap o)) o) x
  = overwrite k v <$> entry_at o x.
Proof.
  intros Hwf Hk Hp Hx.
  destruct (wf_entry_at o x Hwf Hx) as (px & kx & vx & Hvx & Hpx & Hkx & Hat).
  rewrite Hat. unfold entry_at, pair_at, overwrite. simpl. rewrite Hvx.
  rewrite lookup_insert. case_decide as Hpp.
  - subst px. simplify_eq. simpl. by rewrite decide_True.
  - rewrite Hpx. simpl. rewrite decide_False; [done|].
    intros ->. simplify_eq.
Qed.

Lemma entries_overwrite o k v v0 e p :
  wf o → items o !! k = Some p →
  heap o !! p = Some (mkPair k v0 (Some e)) →
  entries (set_heap (<[p := mkPair k v (Some e)]> (heap o)) o)
  = overwrite k v <$> entries o.
Proof.
  intros Hwf Hk Hp. unfold entries. simpl.
  assert (LinkedList.chain (order o) ⊆ LinkedList.chain (order o)) as Hsub by done.
  revert Hsub. generalize (LinkedList.chain (order o)) at 1 3 4.
  induction l as [|x c IH]; intros Hsub; [done|].
  cbn [omap list_omap].
  rewrite (entry_at_overwrite o k v v0 e p x) by (try done; apply Hsub; left).
  destruct (entry_at o x) as [kv|]; simpl; rewrite IH by set_solver; done.
Qed.

Lemma overwrite_keys k v (es : list (K * V)) :
  (overwrite k v <$> es).*1 = es.*1.
Proof.
  rewrite <-list_fmap_compose. apply list_fmap_ext. intros i [k' v'] _. simpl.
  unfold overwrite. simpl. by case_decide; subst.
Qed.

End overwrite.

(** ** The contracts of the operations *)

Section contracts.
Context {K : Type} `{Countable K} {V : Type}.
Implicit Types (o : @OrderedMap K _ _ V) (k : K) (v : V) (p : loc).

(** C8. [Remove] of an absent key returns nil and false and leaves the map
    as it was.  [Remove] of a present key returns true and a pointer to
    the pair stored under the key; the key is deleted from the index, the
    walk loses the entry of that key and nothing else, keeps the order of
    the others, and is one entry shorter. *)
Theorem Remove_total_or_noop cs o k :
  run cs New = Ret o →
  (Get k o = Ret (None, false) → Remove k o = Ret (None, false, o))
  ∧ (∀ v, Get k o = Ret (Some v, true) →
       ∃ ptr e o', Remove k o = Ret (Some ptr, true, o')
         ∧ load o' ptr = Ret (mkPair k v e)
         ∧ items o' = delete k (items o)
         ∧ Get k o' = Ret (None, false)
         ∧ entries o' = filter (λ kv, kv.1 ≠ k) (entries o)
         ∧ (k, v) ∈ entries o
         ∧ S (length (entries o')) = length (entries o)).
Proof.
  intros Hwf%wf_reachable. split.
  - intros Hk%Get_None_inv; [|done]. unfold Remove. by rewrite Hk.
  - intros v (p & e & Hk & Hp & He & Hat)%Get_Some_inv; [|done].
    destruct (Remove_present k o p Hwf Hk) as (v' & e' & Hp' & He' & Hat' & HR).
    simplify_eq. exists p, (Some e), (removed k e o).
    pose proof (wf_removed k v e p o Hwf Hk Hp) as Hwf'.
    split; [done|]. split; [by apply load_Some|]. split; [done|].
    split; [unfold Get; simpl; by rewrite lookup_delete_eq|].
    split; [by apply (entries_removed o k e v)|].
    split; [apply list_elem_of_omap; by exists e|].
    rewrite !entries_length by done. simpl.
    apply length_unlink; [by apply wf_nodup|done].
Qed.

(** C6. [MoveToFront] (resp. [MoveToBack]) of an absent key fails with
    [KeyNotFoundError] for that key and leaves the map as it was.  On a
    present key it succeeds: the key's entry comes first (resp. last) in
    the walk, the other entries keep their order, the walk holds the same
    entries as before and every [Get] answers as before.  When the key is
    already first (resp. last) in [Keys], the call succeeds and the map is
    unchanged. *)
Theorem MoveToFront_MoveToBack_relocate cs o k :
  run cs New = Ret o →
  (Get k o = Ret (None, false) →
     MoveToFront k o = Ret (Some (KeyNotFoundError k), o)
     ∧ MoveToBack k o = Ret (Some (KeyNotFoundError k), o))
  ∧ (∀ v, Get k o = Ret (Some v, true) →
       (∃ o', MoveToFront k o = Ret (None, o')
          ∧ entries o' = (k, v) :: filter (λ kv, kv.1 ≠ k) (entries o)
          ∧ entries o' ≡ₚ entries o
          ∧ ∀ k', Get k' o' = Get k' o)
       ∧ (∃ o', MoveToBack k o = Ret (None, o')
          ∧ entries o' = filter (λ kv, kv.1 ≠ k) (entries o) ++ [(k, v)]
          ∧ entries o' ≡ₚ entries o
          ∧ ∀ k', Get k' o' = Get k' o))
  ∧ (∀ ks, Keys o = Ret (k :: ks) → MoveToFront k o = Ret (None, o))
  ∧ (∀ ks, Keys o = Ret (ks ++ [k]) → MoveToBack k o = Ret (None, o)).
Proof.
  intros Hwf%wf_reachable. split; [|split; [|split]].
  - intros Hk%Get_None_inv; [|done]. unfold MoveToFront, MoveToBack.
    by rewrite Hk.
  - intros v (p & e & Hk & Hp & He & Hat)%Get_Some_inv; [|done].
    assert ((k, v) ∈ entries o) as Hin by (apply list_elem_of_omap; by exists e).
    pose proof (entries_keys_NoDup o Hwf) as Hnd.
    split.
    + destruct (MoveToFront_present k o p Hwf Hk) as (v' & e' & Hp' & _ & _ & ->).
      simplify_eq. eexists. split; [done|].
      rewrite (entries_moved_front o k e v) by done.
      split; [done|]. split; [by apply filter_key_perm|].
      intros k'. apply Get_frame;
        by destruct (LinkedList_MoveToFront_reorder e (order o) (wf_nodup _ Hwf))
          as (c & -> & _).
    + destruct (MoveToBack_present k o p Hwf Hk) as (v' & e' & Hp' & _ & _ & ->).
      simplify_eq. eexists. split; [done|].
      rewrite (entries_moved_back o k e v) by done.
      split; [done|].
      split; [rewrite <-Permutation_cons_append; by apply filter_key_perm|].
      intros k'. apply Get_frame;
        by destruct (LinkedList_MoveToBack_reorder e (order o) (wf_nodup _ Hwf))
          as (c & -> & _).
  - intros ks. rewrite Keys_entries by done. intros [= Hks].
    unfold entries in Hks.
    destruct (LinkedList.chain (order o)) as [|e0 c] eqn:Hc; [done|].
    destruct (wf_entry_at o e0 Hwf) as (p & k0 & v0 & _ & Hp & Hk & Hat);
      [rewrite Hc; left|].
    cbn [omap list_omap] in Hks. rewrite Hat in Hks. simpl in Hks.
    injection Hks as -> _.
    unfold MoveToFront. rewrite Hk, (load_Some _ _ _ Hp). cbn.
    unfold LinkedList.MoveToFront, LinkedList.Front. rewrite Hc. simpl.
    rewrite decide_False by (intros [_ Hne]; by apply Hne). by destruct o.
  - intros ks. rewrite Keys_entries by done. intros [= Hks].
    unfold entries in Hks.
    destruct (LinkedList.chain (order o)) as [|e0 c _] eqn:Hc using rev_ind.
    { by destruct ks. }
    destruct (wf_entry_at o e0 Hwf) as (p & k0 & v0 & _ & Hp & Hk & Hat).
    { rewrite Hc. apply elem_of_app. right. left. }
    rewrite omap_app, fmap_app in Hks. cbn [omap list_omap] in Hks.
    rewrite Hat in Hks. simpl in Hks. apply app_inj_tail in Hks as [_ ->].
    unfold MoveToBack. rewrite Hk, (load_Some _ _ _ Hp). cbn.
    unfold LinkedList.MoveToBack, LinkedList.Back. rewrite Hc, last_snoc.
    rewrite decide_False by (intros [_ Hne]; by apply Hne). by destruct o.
Qed.

(** C7. [Set] on a present key returns; afterwards [Get] of the key gives
    the new value, [Get] of any other key answers as before, [Keys] is
    unchanged (so the key keeps its position), the walk has the same
    number of entries, and it is the old walk with that key's value
    replaced. *)
Theorem Set_present_overwrites cs o k v v0 :
  run cs New = Ret o →
  Get k o = Ret (Some v0, true) →
  ∃ o', Set_ k v o = Ret o'
    ∧ Get k o' = Ret (Some v, true)
    ∧ (∀ k', k' ≠ k → Get k' o' = Get k' o)
    ∧ Keys o' = Keys o
    ∧ length (entries o') = length (entries o)
    ∧ entries o' = overwrite k v <$> entries o.
Proof.
  intros Hwf%wf_reachable (p & e & Hk & Hp & He & Hat)%Get_Some_inv; [|done].
  destruct (Set_present k v o p Hwf Hk) as (v0' & e' & Hp' & ->).
  simplify_eq. eexists. split; [done|].
  pose proof (wf_overwrite k v v0 e p o Hwf Hp) as Hwf'.
  pose proof (entries_overwrite o k v v0 e p Hwf Hk Hp) as Hes.
  split; [|split; [|split; [|split]]].
  - unfold Get, load. simpl. rewrite Hk. by rewrite lookup_insert_eq.
  - intros k' Hne. unfold Get, load. simpl.
    destruct (items o !! k') as [p'|] eqn:Hk'; [|done].
    rewrite lookup_insert_ne; [done|]. intros <-.
    destruct (wf_items _ Hwf k' p Hk') as (? & ? & ? & _). simplify_eq.
  - rewrite !Keys_entries by done. by rewrite Hes, overwrite_keys.
  - by rewrite Hes, length_fmap.
  - done.
Qed.

(** C4. When the key to insert is already in the map and the mark exists,
    [InsertAfter] and [InsertBefore] return a [DuplicateKeyValueError]
    carrying that key and the value stored under it, and the map they
    leave is the map they were given. *)
Theorem Insert_existing_key_rejected cs o k v mark existingValue markValue :
  run cs New = Ret o →
  Get k o = Ret (Some existingValue, true) →
  Get mark o = Ret (Some markValue, true) →
  InsertAfter k v mark o
    = Ret (Some (DuplicateKeyValueError k existingValue), o)
  ∧ InsertBefore k v mark o
    = Ret (Some (DuplicateKeyValueError k existingValue), o).
Proof.
  intros Hwf%wf_reachable.
  intros (p & e & Hk & Hp & _)%Get_Some_inv; [|done].
  intros (q & m & Hm & Hq & _)%Get_Some_inv; [|done].
  unfold InsertAfter, InsertBefore.
  by rewrite Hm, Hk, (load_Some _ _ _ Hp).
Qed.

End contracts.

(** ** Equality walks both maps in lockstep *)

Section lockstep.
Context {K : Type} `{Countable K} {V : Type}.
Variable DeepEqual : V → V → bool.
Implicit Types (x y : @OrderedMap K _ _ V).

Lemma Equal_loop_unfold fuel x y xIt yIt :
  Equal_loop DeepEqual (S fuel) x y xIt yIt =
  '(xCurrent, xIt) ← Next x xIt;
  '(yCurrent, yIt) ← Next y yIt;
  if is_nil xCurrent && is_nil yCurrent then Ret true
  else if (is_nil xCurrent && negb (is_nil yCurrent))
          || (is_nil yCurrent && negb (is_nil xCurrent)) then Ret false
  else
    xp ← deref xCurrent;
    yp ← deref yCurrent;
    xkv ← load x xp;
    ykv ← load y yp;
    if negb (bool_decide (Key xkv = Key ykv)) then Ret false
    else if negb (DeepEqual (Value xkv) (Value ykv)) then Ret false
    else Equal_loop DeepEqual fuel x y xIt yIt.
Proof. done. Qed.

Lemma Equal_loop_lockstep x y cx2 : ∀ cx1 cy1 cy2,
  wf x → wf y →
  LinkedList.chain (order x) = cx1 ++ cx2 →
  LinkedList.chain (order y) = cy1 ++ cy2 →
  length cx2 = length cy2 →
  ∃ b, Equal_loop DeepEqual (S (length cx2)) x y
         {| pos := head cx2 |} {| pos := head cy2 |} = Ret b
       ∧ (b = true ↔
          Forall2 (same_entry DeepEqual)
            (omap (entry_at x) cx2) (omap (entry_at y) cy2)).
Proof.
  induction cx2 as [|e cx2 IH]; intros cx1 cy1 [|f cy2] Hx Hy Hcx Hcy Hlen;
    try discriminate Hlen.
  { exists true. split; [done|]. split; [constructor|done]. }
  injection Hlen as Hlen.
  destruct (Next_linked x cx1 e cx2 Hx Hcx) as (p & k & v & Hp & Hat & HN).
  destruct (Next_linked y cy1 f cy2 Hy Hcy) as (q & k' & v' & Hq & Hat' & HN').
  rewrite Equal_loop_unfold. cbn [head length].
  rewrite HN. cbn [mbind outcome_bind]. rewrite HN'.
  cbn [mbind outcome_bind is_nil andb orb negb deref].
  rewrite (load_Some _ _ _ Hp), (load_Some _ _ _ Hq).
  cbn [mbind outcome_bind Key Value omap list_omap]. rewrite Hat, Hat'.
  destruct (decide (k = k')) as [<-|Hne].
  - rewrite bool_decide_eq_true_2 by done. cbn [negb].
    destruct (DeepEqual v v') eqn:Hdeep; cbn [negb].
    + destruct (IH (cx1 ++ [e]) (cy1 ++ [f]) cy2) as (b & -> & Hb);
        [done|done|by rewrite <-app_assoc|by rewrite <-app_assoc|done|].
      exists b. split; [done|]. rewrite Hb. split.
      * intros HF. by constructor.
      * intros HF. by apply Forall2_cons_1 in HF as [_ HF].
    + exists false. split; [done|]. split; [done|].
      intros [[_ Hd] _]%Forall2_cons_1. simpl in Hd. congruence.
  - rewrite bool_decide_eq_false_2 by done. cbn [negb].
    exists false. split; [done|]. split; [done|].
    intros [[Hk _] _]%Forall2_cons_1. done.
Qed.

Lemma same_entry_keys (l1 l2 : list (K * V)) :
  Forall2 (same_entry DeepEqual) l1 l2 → l1.*1 = l2.*1.
Proof.
  induction 1 as [|a b l1 l2 [Hk _] _ IH]; [done|].
  rewrite !fmap_cons. by rewrite Hk, IH.
Qed.

(** With distinct keys, the same pairs in the same key order are the same
    walk. *)
Lemma perm_same_keys (l1 : list (K * V)) : ∀ l2,
  NoDup l1.*1 → l1 ≡ₚ l2 → l1.*1 = l2.*1 → l1 = l2.
Proof.
  induction l1 as [|[k v] l1 IH]; intros [|[k' v'] l2] Hnd Hp Hk;
    try discriminate Hk; [done|].
  rewrite !fmap_cons in Hk, Hnd. simpl in Hk, Hnd. injection Hk as <- Hk.
  apply NoDup_cons in Hnd as [Hk' Hnd].
  assert (v' = v) as ->.
  { assert ((k, v') ∈ (k, v) :: l1) as [[= ->]|Hin]%elem_of_cons;
      [rewrite Hp; left|done|].
    destruct Hk'. apply list_elem_of_fmap. by exists (k, v'). }
  f_equal. apply IH; [done| |done]. by apply Permutation_cons_inv in Hp.
Qed.

(** C9. On two present maps [Equal] returns, and it returns true exactly
    when the two walks have the same length and hold, position by
    position, equal keys and deeply equal values; so two maps holding the
    same pairs in different orders compare unequal. *)
Theorem Equal_order_sensitive csx csy x y :
  run csx New = Ret x → run csy New = Ret y →
  ∃ b, Equal DeepEqual (Some x) (Some y) = Ret b
    ∧ (b = true ↔
       length (entries x) = length (entries y)
       ∧ Forall2 (same_entry DeepEqual) (entries x) (entries y))
    ∧ (entries x ≡ₚ entries y → entries x ≠ entries y → b = false).
Proof.
  intros Hx%wf_reachable Hy%wf_reachable.
  assert (∃ b, Equal DeepEqual (Some x) (Some y) = Ret b
            ∧ (b = true ↔
               length (entries x) = length (entries y)
               ∧ Forall2 (same_entry DeepEqual) (entries x) (entries y)))
    as (b & HE & Hb).
  { unfold Equal. cbn [is_nil andb orb negb deref mbind outcome_bind].
    rewrite !entries_length by done.
    destruct (decide (LinkedList.Len (order x) = LinkedList.Len (order y)))
      as [Hlen|Hlen].
    - rewrite bool_decide_eq_true_2 by done. cbn [negb].
      destruct (Equal_loop_lockstep x y _ [] [] _ Hx Hy eq_refl eq_refl Hlen)
        as (b & HE & Hb).
      exists b. split; [exact HE|]. rewrite Hb. unfold entries. tauto.
    - rewrite bool_decide_eq_false_2 by done. cbn [negb].
      exists false. split; [done|]. split; [done|]. tauto. }
  exists b. split; [done|]. split; [done|].
  intros Hperm Hne. destruct b; [|done]. destruct Hne.
  apply perm_same_keys; [by apply entries_keys_NoDup|done|].
  apply same_entry_keys. by apply Hb.
Qed.

(** C2 (the code at nil arguments). With exactly one nil argument [Equal]
    returns false; with both arguments nil it reads [x.order] through the
    nil pointer and panics instead of returning true. *)
Theorem Equal_nil_arguments x :
  Equal DeepEqual None (Some x) = Ret false
  ∧ Equal DeepEqual (Some x) None = Ret false
  ∧ Equal DeepEqual (None : option (@OrderedMap K _ _ V)) None = Panic.
Proof. done. Qed.

End lockstep.

(** ** The scenarios of the test suite *)

Section scenarios.
Import Scenario.

Example four_entries :
  entries four
  = [("first", "1st"); ("second", "2nd"); ("fourth", "4th"); ("fifth", "5th")].
Proof. reflexivity. Qed.

(** C5. From the empty map, four [Set] calls for first, second, fourth
    and fifth followed by [InsertAfter] of third after second: the insert
    returns no error and [Keys] then lists first, second, third, fourth,
    fifth. *)
Theorem InsertAfter_third_after_second :
  (o ← Set_ "first" "1st" (New : @OrderedMap string _ _ string);
   o ← Set_ "second" "2nd" o;
   o ← Set_ "fourth" "4th" o;
   o ← Set_ "fifth" "5th" o;
   r ← InsertAfter "third" "3rd" "second" o;
   keys ← Keys r.2;
   Ret (r.1, keys))
  = Ret (None, ["first"; "second"; "third"; "fourth"; "fifth"]).
Proof. vm_compute. reflexivity. Qed.

(** C1 (the code when the mark is absent). [InsertAfter] and
    [InsertBefore] of key third relative to the absent mark alphabet leave
    the map unchanged, on the empty map and on a populated one, but the
    [KeyNotFoundError] they return carries the key to insert, third, not
    the absent mark. *)
Theorem Insert_absent_mark_error_names_key :
  InsertAfter "third" "3rd" "alphabet" (New : @OrderedMap string _ _ string)
    = Ret (Some (KeyNotFoundError "third"), New)
  ∧ InsertBefore "third" "3rd" "alphabet" (New : @OrderedMap string _ _ string)
    = Ret (Some (KeyNotFoundError "third"), New)
  ∧ InsertAfter "third" "3rd" "alphabet" four
    = Ret (Some (KeyNotFoundError "third"), four)
  ∧ InsertBefore "third" "3rd" "alphabet" four
    = Ret (Some (KeyNotFoundError "third"), four)
  ∧ Get "alphabet" four = Ret (None, false).
Proof. repeat split; vm_compute; reflexivity. Qed.

Example Equal_ab_ba : Equal Nat.eqb (Some ab) (Some ba) = Ret false.
Proof. vm_compute. reflexivity. Qed.

Example Equal_ab_ab : Equal Nat.eqb (Some ab) (Some ab) = Ret true.
Proof. vm_compute. reflexivity. Qed.

Example MoveAfter_first_after_second :
  (r ← InsertAfter "third" "3rd" "second" four;
   r ← MoveAfter "first" "second" r.2;
   Keys r.2)
  = Ret ["second"; "first"; "third"; "fourth"; "fifth"].
Proof. vm_compute. reflexivity. Qed.

(** Removing second from the map of four. *)
Lemma Remove_total_or_noop_witness :
  run fourSets New = Ret four
  ∧ Get "second" four = Ret (Some "2nd", true)
  ∧ ∃ ptr e o', Remove "second" four = Ret (Some ptr, true, o')
      ∧ load o' ptr = Ret (mkPair "second" "2nd" e)
      ∧ items o' = delete "second" (items four)
      ∧ Get "second" o' = Ret (None, false)
      ∧ entries o' = filter (λ kv, kv.1 ≠ "second") (entries four)
      ∧ ("second", "2nd") ∈ entries four
      ∧ S (length (entries o')) = length (entries four).
Proof.
  split; [vm_compute; reflexivity|]. split; [vm_compute; reflexivity|].
  refine (proj2 (Remove_total_or_noop fourSets four "second" _) "2nd" _);
    vm_compute; reflexivity.
Defined.

(** Moving fourth to either end of the map of four. *)
Lemma MoveToFront_MoveToBack_relocate_witness :
  run fourSets New = Ret four
  ∧ Get "fourth" four = Ret (Some "4th", true)
  ∧ (∃ o', MoveToFront "fourth" four = Ret (None, o')
       ∧ entries o' = ("fourth", "4th") :: filter (λ kv, kv.1 ≠ "fourth") (entries four)
       ∧ entries o' ≡ₚ entries four
       ∧ ∀ k', Get k' o' = Get k' four)
  ∧ (∃ o', MoveToBack "fourth" four = Ret (None, o')
       ∧ entries o' = filter (λ kv, kv.1 ≠ "fourth") (entries four) ++ [("fourth", "4th")]
       ∧ entries o' ≡ₚ entries four
       ∧ ∀ k', Get k' o' = Get k' four).
Proof.
  split; [vm_compute; reflexivity|]. split; [vm_compute; reflexivity|].
  refine (proj1 (proj2
    (MoveToFront_MoveToBack_relocate fourSets four "fourth" _)) "4th" _);
    vm_compute; reflexivity.
Defined.

(** Overwriting second in the map of four. *)
Lemma Set_present_overwrites_witness :
  run fourSets New = Ret four
  ∧ Get "second" four = Ret (Some "2nd", true)
  ∧ ∃ o', Set_ "second" ":(" four = Ret o'
      ∧ Get "second" o' = Ret (Some ":(", true)
      ∧ (∀ k', k' ≠ "second" → Get k' o' = Get k' four)
      ∧ Keys o' = Keys four
      ∧ length (entries o') = length (entries four)
      ∧ entries o' = overwrite "second" ":(" <$> entries four.
Proof.
  split; [vm_compute; reflexivity|]. split; [vm_compute; reflexivity|].
  apply (Set_present_overwrites fourSets four "second" ":(" "2nd");
    vm_compute; reflexivity.
Defined.

(** Inserting the present key first relative to second in the map of
    four. *)
Lemma Insert_existing_key_rejected_witness :
  run fourSets New = Ret four
  ∧ Get "first" four = Ret (Some "1st", true)
  ∧ Get "second" four = Ret (Some "2nd", true)
  ∧ InsertAfter "first" "1st" "second" four
    = Ret (Some (DuplicateKeyValueError "first" "1st"), four)
  ∧ InsertBefore "first" "1st" "second" four
    = Ret (Some (DuplicateKeyValueError "first" "1st"), four).
Proof.
  split; [vm_compute; reflexivity|]. split; [vm_compute; reflexivity|].
  split; [vm_compute; reflexivity|].
  apply (Insert_existing_key_rejected fourSets four "first" "1st" "second" "1st" "2nd");
    vm_compute; reflexivity.
Defined.

(** The two maps of the spec's equality example. *)
Lemma Equal_order_sensitive_witness :
  run abSets New = Ret ab
  ∧ run baSets New = Ret ba
  ∧ ∃ b, Equal Nat.eqb (Some ab) (Some ba) = Ret b
      ∧ (b = true ↔
         length (entries ab) = length (entries ba)
         ∧ Forall2 (same_entry Nat.eqb) (entries ab) (entries ba))
      ∧ (entries ab ≡ₚ entries ba → entries ab ≠ entries ba → b = false).
Proof.
  split; [vm_compute; reflexivity|]. split; [vm_compute; reflexivity|].
  apply (Equal_order_sensitive Nat.eqb abSets baSets ab ba);
    vm_compute; reflexivity.
Defined.

(** A cursor over the map of four. *)
Lemma Iterator_yields_entries_then_nil_witness :
  run fourSets New = Ret four
  ∧ (∀ j, calls (length (entries four) + j) four (OrderedMap_Iterator four)
          = Ret ((Some <$> entries four) ++ replicate j None))
  ∧ (LinkedList.Len (order four) = 0 →
     Next four (OrderedMap_Iterator four) = Ret (None, OrderedMap_Iterator four))
  ∧ (∀ it it', Next four it = Ret (None, it') →
               Next four it' = Ret (None, it')).
Proof.
  split; [vm_compute; reflexivity|].
  apply (Iterator_yields_entries_then_nil fourSets four).
  vm_compute. reflexivity.
Defined.

End scenarios.

(** * Further properties of the operations *)

Section lookups.
Context {K : Type} `{Countable K} {V : Type}.
Implicit Types (o : @OrderedMap K _ _ V) (k : K) (v : V) (p : loc).



Lemma Get_returns o k : wf o → ∃ r, Get k o = Ret r.
Proof.
  intros Hwf. unfold Get. destruct (items o !! k) as [p|] eqn:Hk; [|by eexists].
  destruct (wf_items _ Hwf k p Hk) as (v & e & Hp & _).
  rewrite (load_Some _ _ _ Hp). by eexists.
Qed.

Lemma Get_Some_entries o k v :
  wf o → Get k o = Ret (Some v, true) ↔ (k, v) ∈ entries o.
Proof.
  intros Hwf. split.
  - intros (p & e & _ & _ & He & Hat)%Get_Some_inv; [|done].
    apply list_elem_of_omap. by exists e.
  - intros (e & He & Hat)%list_elem_of_omap.
    destruct (wf_entry_at o e Hwf He) as (p & k' & v' & _ & Hp & Hk & Hat').
    simplify_eq. unfold Get. by rewrite Hk, (load_Some _ _ _ Hp).
Qed.

Lemma Get_None_entries o k :
  wf o → Get k o = Ret (None, false) ↔ k ∉ (entries o).*1.
Proof.
  intros Hwf. rewrite elem_of_entries_keys by done. split.
  - intros Hk%Get_None_inv; [|done]. rewrite Hk. by intros [? ?].
  - intros Hk. unfold Get. destruct (items o !! k); [|done]. destruct Hk. eauto.
Qed.


(** X2. [Get] always returns, and it agrees with the walk: it finds value
    [v] under [k] exactly when the pair (k, v) is met when walking the
    order, and reports not-found exactly when no entry of the walk has key
    [k]. *)
Theorem Get_agrees_with_walk cs o k :
  run cs New = Ret o →
  (∃ r, Get k o = Ret r)
  ∧ (∀ v, Get k o = Ret (Some v, true) ↔ (k, v) ∈ entries o)
  ∧ (Get k o = Ret (None, false) ↔ k ∉ (entries o).*1).
Proof.
  intros Hwf%wf_reachable. split; [by apply Get_returns|].
  split; [intros v; by apply Get_Some_entries|by apply Get_None_entries].
Qed.

(** X3. [GetOrDefault] returns the value of the key's entry in the walk
    when there is one, whatever the default, and the default when no entry
    of the walk has the key. *)
Theorem GetOrDefault_stored_or_default cs o k d :
  run cs New = Ret o →
  (∀ v, (k, v) ∈ entries o → GetOrDefault k d o = Ret v)
  ∧ (k ∉ (entries o).*1 → GetOrDefault k d o = Ret d).
Proof.
  intros Hwf%wf_reachable. unfold GetOrDefault. split.
  - by intros v ->%Get_Some_entries.
  - by intros ->%Get_None_entries.
Qed.

(** X4. [First] and [Last] return nil on a map whose walk is empty;
    otherwise they return pointers to the pairs of the first and of the
    last entry of the walk. *)
Theorem First_Last_are_the_ends cs o :
  run cs New = Ret o →
  (entries o = [] → First o = Ret None ∧ Last o = Ret None)
  ∧ (∀ kv es, entries o = kv :: es →
       ∃ p e, First o = Ret (Some p) ∧ load o p = Ret (mkPair kv.1 kv.2 e))
  ∧ (∀ es kv, entries o = es ++ [kv] →
       ∃ p e, Last o = Ret (Some p) ∧ load o p = Ret (mkPair kv.1 kv.2 e)).
Proof.
  intros Hwf%wf_reachable. unfold First, Last, LinkedList.Front, LinkedList.Back.
  split; [|split].
  - intros Hes. apply (f_equal length) in Hes. rewrite entries_length in Hes by done.
    apply nil_length_inv in Hes. by rewrite Hes.
  - intros kv es Hes. unfold entries in Hes.
    destruct (LinkedList.chain (order o)) as [|e0 c] eqn:Hc; [done|].
    destruct (wf_entry_at o e0 Hwf) as (p & k & v & Hv & Hp & _ & Hat);
      [rewrite Hc; left|].
    cbn [omap list_omap] in Hes. rewrite Hat in Hes. injection Hes as <- _.
    exists p, (Some e0). simpl. unfold LinkedList.Value. rewrite Hv.
    split; [done|]. by apply load_Some.
  - intros es kv Hes. unfold entries in Hes.
    destruct (LinkedList.chain (order o)) as [|e0 c _] eqn:Hc using rev_ind.
    { by destruct es. }
    destruct (wf_entry_at o e0 Hwf) as (p & k & v & Hv & Hp & _ & Hat).
    { rewrite Hc. apply elem_of_app. right. left. }
    rewrite omap_app in Hes. cbn [omap list_omap] in Hes. rewrite Hat in Hes.
    apply app_inj_tail in Hes as [_ <-].
    exists p, (Some e0). rewrite last_snoc. unfold LinkedList.Value. rewrite Hv.
    split; [done|]. by apply load_Some.
Qed.

(** X5. [MoveAfter] and [MoveBefore] check the key to move first and the
    mark second: with the key absent they fail with [KeyNotFoundError] for
    the key, whether or not the mark exists; with the key present and the
    mark absent they fail with [KeyNotFoundError] for the mark.  Either way
    the map is unchanged. *)
Theorem Move_relative_missing_key cs o k mark :
  run cs New = Ret o →
  (Get k o = Ret (None, false) →
     MoveAfter k mark o = Ret (Some (KeyNotFoundError k), o)
     ∧ MoveBefore k mark o = Ret (Some (KeyNotFoundError k), o))
  ∧ (∀ v, Get k o = Ret (Some v, true) → Get mark o = Ret (None, false) →
     MoveAfter k mark o = Ret (Some (KeyNotFoundError mark), o)
     ∧ MoveBefore k mark o = Ret (Some (KeyNotFoundError mark), o)).
Proof.
  intros Hwf%wf_reachable. unfold MoveAfter, MoveBefore. split.
  - intros Hk%Get_None_inv; [|done]. by rewrite Hk.
  - intros v (p & e & Hk & _)%Get_Some_inv Hm%Get_None_inv; [|done..].
    by rewrite Hk, Hm.
Qed.

(** X8. Moving a present key relative to itself succeeds and changes
    nothing. *)
Theorem Move_relative_to_itself cs o k v :
  run cs New = Ret o →
  Get k o = Ret (Some v, true) →
  MoveAfter k k o = Ret (None, o) ∧ MoveBefore k k o = Ret (None, o).
Proof.
  intros Hwf%wf_reachable (p & e & Hk & Hp & _)%Get_Some_inv; [|done].
  unfold MoveAfter, MoveBefore. rewrite Hk, (load_Some _ _ _ Hp). cbn.
  unfold LinkedList.MoveAfter, LinkedList.MoveBefore.
  rewrite !decide_False by (intros (_ & _ & Hne); by apply Hne).
  by destruct o.
Qed.

(** X11. The fallible operations are all-or-nothing: whenever a move or an
    insert returns an error, the map it returns is the map it was given. *)
Theorem errors_leave_map_unchanged o o' k v mark err :
  (MoveToFront k o = Ret (Some err, o') → o' = o)
  ∧ (MoveToBack k o = Ret (Some err, o') → o' = o)
  ∧ (MoveAfter k mark o = Ret (Some err, o') → o' = o)
  ∧ (MoveBefore k mark o = Ret (Some err, o') → o' = o)
  ∧ (InsertAfter k v mark o = Ret (Some err, o') → o' = o)
  ∧ (InsertBefore k v mark o = Ret (Some err, o') → o' = o).
Proof.
  unfold MoveToFront, MoveToBack, MoveAfter, MoveBefore, InsertAfter,
    InsertBefore, insertKeyValuePair, store, load, deref.
  repeat split; intros Heq;
    repeat (match type of Heq with
            | context [match ?x with _ => _ end] => destruct x eqn:?
            | context [decide ?P] => destruct (decide P)
            end; cbn in Heq; try discriminate Heq);
    congruence.
Qed.

(** X16. The list length that [Equal] compares first is the number of keys
    in the index, and it is the number of keys [Keys] returns. *)
Theorem Len_counts_the_keys cs o :
  run cs New = Ret o →
  LinkedList.Len (order o) = size (items o)
  ∧ ∃ ks, Keys o = Ret ks ∧ length ks = size (items o).
Proof.
  intros Hwf%wf_reachable.
  assert (length (entries o).*1 = size (items o)) as Hlen.
  { rewrite <-size_dom, <-(size_list_to_set (C:=gset K) (entries o).*1)
      by by apply entries_keys_NoDup.
    f_equal. apply set_eq. intros k.
    by rewrite elem_of_list_to_set, elem_of_dom, elem_of_entries_keys. }
  split.
  - by rewrite <-entries_length, <-Hlen, length_fmap.
  - exists (entries o).*1. split; [by apply Keys_entries|done].
Qed.

(** X17. Position coherence: the pair indexed under a key carries that very
    key, its element handle is linked in the order, and that element holds
    the pointer to the pair; conversely every linked element holds a pair
    that is indexed under its own key and points back to the element. *)
Theorem position_coherence cs o :
  run cs New = Ret o →
  (∀ k p, items o !! k = Some p →
     ∃ v e, load o p = Ret (mkPair k v (Some e))
            ∧ e ∈ LinkedList.chain (order o)
            ∧ LinkedList.Value (order o) e = Some (Some p))
  ∧ (∀ e, e ∈ LinkedList.chain (order o) →
     ∃ p k v, LinkedList.Value (order o) e = Some (Some p)
              ∧ load o p = Ret (mkPair k v (Some e))
              ∧ items o !! k = Some p).
Proof.
  intros Hwf%wf_reachable. split.
  - intros k p Hk. destruct (wf_items _ Hwf k p Hk) as (v & e & Hp & He & Hv).
    exists v, e. split; [by apply load_Some|done].
  - intros e He. destruct (wf_chain _ Hwf e He) as (p & k & v & Hv & Hp & Hk).
    exists p, k, v. split; [done|]. split; [by apply load_Some|done].
Qed.

End lookups.

(** ** Placing one entry next to another *)

Section placement.
Context {K : Type} `{Countable K} {V : Type}.
Implicit Types (o : @OrderedMap K _ _ V) (k : K) (v : V) (p : loc).

Lemma link_after_split (e m : LinkedList.Element) c1 c2 :
  m ∉ c1 →
  LinkedList.link_after e m (c1 ++ m :: c2) = c1 ++ m :: e :: c2.
Proof.
  induction c1 as [|x c1 IH]; simpl; intros Hm.
  - by rewrite decide_True.
  - apply not_elem_of_cons in Hm as [Hne Hm].
    rewrite decide_False by done. by rewrite IH.
Qed.

Lemma link_before_split (e m : LinkedList.Element) c1 c2 :
  m ∉ c1 →
  LinkedList.link_before e m (c1 ++ m :: c2) = c1 ++ e :: m :: c2.
Proof.
  induction c1 as [|x c1 IH]; simpl; intros Hm.
  - by rewrite decide_True.
  - apply not_elem_of_cons in Hm as [Hne Hm].
    rewrite decide_False by done. by rewrite IH.
Qed.

(** The chain without [e], cut at the mark [m]. *)
Lemma unlink_cut_at_mark o k v e mark vm m :
  wf o →
  e ∈ LinkedList.chain (order o) → m ∈ LinkedList.chain (order o) →
  entry_at o e = Some (k, v) → entry_at o m = Some (mark, vm) → e ≠ m →
  ∃ c1 c2,
    LinkedList.unlink e (LinkedList.chain (order o)) = c1 ++ m :: c2
    ∧ (m ∉ c1)
    ∧ c1 ⊆ LinkedList.chain (order o) ∧ c2 ⊆ LinkedList.chain (order o)
    ∧ filter (λ kv, kv.1 ≠ k) (entries o)
      = omap (entry_at o) c1 ++ (mark, vm) :: omap (entry_at o) c2.
Proof.
  intros Hwf He Hm Hat Hatm Hne.
  assert (m ∈ LinkedList.unlink e (LinkedList.chain (order o))) as Hin
    by (apply elem_of_unlink; auto).
  apply list_elem_of_split in Hin as (c1 & c2 & Hc).
  assert (NoDup (c1 ++ m :: c2)) as Hnd.
  { rewrite <-Hc. apply NoDup_filter. by apply wf_nodup. }
  assert (∀ x, x ∈ c1 ++ m :: c2 → x ∈ LinkedList.chain (order o)) as Hsub.
  { intros x. rewrite <-Hc. by intros [_ ?]%elem_of_unlink. }
  exists c1, c2. split; [done|]. split.
  { apply NoDup_app in Hnd as (_ & Hdisj & _). intros Hin. apply (Hdisj m Hin). left. }
  split.
  { intros x Hx. apply Hsub, elem_of_app. by left. }
  split.
  { intros x Hx. apply Hsub, elem_of_app. right. by right. }
  unfold entries. rewrite <-(omap_entry_unlink o e k v) by done.
  rewrite Hc, omap_app. cbn [omap list_omap]. by rewrite Hatm.
Qed.

Lemma entries_moved_after o k v e mark vm m :
  wf o →
  e ∈ LinkedList.chain (order o) → m ∈ LinkedList.chain (order o) →
  entry_at o e = Some (k, v) → entry_at o m = Some (mark, vm) → e ≠ m →
  ∃ l1 l2,
    filter (λ kv, kv.1 ≠ k) (entries o) = l1 ++ (mark, vm) :: l2
    ∧ entries (set_order (LinkedList.MoveAfter e m (order o)) o)
      = l1 ++ (mark, vm) :: (k, v) :: l2.
Proof.
  intros Hwf He Hm Hat Hatm Hne.
  destruct (unlink_cut_at_mark o k v e mark vm m) as (c1 & c2 & Hc & Hm1 & _ & _ & Hf);
    [done..|].
  exists (omap (entry_at o) c1), (omap (entry_at o) c2). split; [done|].
  unfold LinkedList.MoveAfter. rewrite decide_True by done.
  rewrite Hc, link_after_split by done.
  change (entries (set_order _ o)) with (omap (entry_at o) (c1 ++ m :: e :: c2)).
  rewrite omap_app. cbn [omap list_omap]. by rewrite Hatm, Hat.
Qed.

Lemma entries_moved_before o k v e mark vm m :
  wf o →
  e ∈ LinkedList.chain (order o) → m ∈ LinkedList.chain (order o) →
  entry_at o e = Some (k, v) → entry_at o m = Some (mark, vm) → e ≠ m →
  ∃ l1 l2,
    filter (λ kv, kv.1 ≠ k) (entries o) = l1 ++ (mark, vm) :: l2
    ∧ entries (set_order (LinkedList.MoveBefore e m (order o)) o)
      = l1 ++ (k, v) :: (mark, vm) :: l2.
Proof.
  intros Hwf He Hm Hat Hatm Hne.
  destruct (unlink_cut_at_mark o k v e mark vm m) as (c1 & c2 & Hc & Hm1 & _ & _ & Hf);
    [done..|].
  exists (omap (entry_at o) c1), (omap (entry_at o) c2). split; [done|].
  unfold LinkedList.MoveBefore. rewrite decide_True by done.
  rewrite Hc, link_before_split by done.
  change (entries (set_order _ o)) with (omap (entry_at o) (c1 ++ e :: m :: c2)).
  rewrite omap_app. cbn [omap list_omap]. by rewrite Hatm, Hat.
Qed.

Lemma Get_moved o l k :
  (∃ c, l = LinkedList.set_chain c (order o)) →
  Get k (set_order l o) = Get k o.
Proof. by intros (c & ->). Qed.

Lemma MoveAfter_relinks (e m : LinkedList.Element) o :
  wf o → ∃ c, LinkedList.MoveAfter e m (order o) = LinkedList.set_chain c (order o).
Proof.
  intros Hwf.
  destruct (LinkedList_MoveAfter_reorder e m (order o) (wf_nodup _ Hwf)) as (c & -> & _).
  by exists c.
Qed.

Lemma MoveBefore_relinks (e m : LinkedList.Element) o :
  wf o → ∃ c, LinkedList.MoveBefore e m (order o) = LinkedList.set_chain c (order o).
Proof.
  intros Hwf.
  destruct (LinkedList_MoveBefore_reorder e m (order o) (wf_nodup _ Hwf)) as (c & -> & _).
  by exists c.
Qed.

(** X6. [MoveAfter] of a present key relative to another present key
    succeeds: the walk is the old one with the key's entry taken out and put
    back right after the mark's entry, and every [Get] answers as before. *)
Theorem MoveAfter_places_after_mark cs o k v mark vm :
  run cs New = Ret o →
  Get k o = Ret (Some v, true) → Get mark o = Ret (Some vm, true) → k ≠ mark →
  ∃ o' l1 l2,
    MoveAfter k mark o = Ret (None, o')
    ∧ filter (λ kv, kv.1 ≠ k) (entries o) = l1 ++ (mark, vm) :: l2
    ∧ entries o' = l1 ++ (mark, vm) :: (k, v) :: l2
    ∧ ∀ k', Get k' o' = Get k' o.
Proof.
  intros Hwf%wf_reachable.
  intros (p & e & Hk & Hp & He & Hat)%Get_Some_inv; [|done].
  intros (q & m & Hkm & Hq & Hm & Hatm)%Get_Some_inv; [|done].
  intros Hne. assert (e ≠ m) as Hem by (intros ->; congruence).
  destruct (entries_moved_after o k v e mark vm m) as (l1 & l2 & Hf & Hes); [done..|].
  eexists _, l1, l2. split.
  { unfold MoveAfter. by rewrite Hk, Hkm, (load_Some _ _ _ Hp), (load_Some _ _ _ Hq). }
  split; [done|]. split; [done|].
  intros k'. by apply Get_moved, MoveAfter_relinks.
Qed.

(** X7. [MoveBefore] of a present key relative to another present key
    succeeds: the walk is the old one with the key's entry taken out and put
    back right before the mark's entry, and every [Get] answers as before. *)
Theorem MoveBefore_places_before_mark cs o k v mark vm :
  run cs New = Ret o →
  Get k o = Ret (Some v, true) → Get mark o = Ret (Some vm, true) → k ≠ mark →
  ∃ o' l1 l2,
    MoveBefore k mark o = Ret (None, o')
    ∧ filter (λ kv, kv.1 ≠ k) (entries o) = l1 ++ (mark, vm) :: l2
    ∧ entries o' = l1 ++ (k, v) :: (mark, vm) :: l2
    ∧ ∀ k', Get k' o' = Get k' o.
Proof.
  intros Hwf%wf_reachable.
  intros (p & e & Hk & Hp & He & Hat)%Get_Some_inv; [|done].
  intros (q & m & Hkm & Hq & Hm & Hatm)%Get_Some_inv; [|done].
  intros Hne. assert (e ≠ m) as Hem by (intros ->; congruence).
  destruct (entries_moved_before o k v e mark vm m) as (l1 & l2 & Hf & Hes); [done..|].
  eexists _, l1, l2. split.
  { unfold MoveBefore. by rewrite Hk, Hkm, (load_Some _ _ _ Hp), (load_Some _ _ _ Hq). }
  split; [done|]. split; [done|].
  intros k'. by apply Get_moved, MoveBefore_relinks.
Qed.






End placement.

(** ** Round trips, re-initialization and chains of [Set] *)

Section composition.
Context {K : Type} `{Countable K} {V : Type}.
Implicit Types (o : @OrderedMap K _ _ V) (k : K) (v : V) (p : loc).



(** X19. [Remove] of a present key followed by [Set] of the same key does
    not restore the key's place: its entry, with the new value, is now the
    last one of the walk, behind the other entries in their old order. *)
Theorem Remove_then_Set_moves_to_back cs o k v0 v :
  run cs New = Ret o →
  Get k o = Ret (Some v0, true) →
  ∃ r o1 o2, Remove k o = Ret (r, o1)
    ∧ Set_ k v o1 = Ret o2
    ∧ entries o2 = filter (λ kv, kv.1 ≠ k) (entries o) ++ [(k, v)].
Proof.
  intros Hwf%wf_reachable (p & e & Hk & Hp & He & Hat)%Get_Some_inv; [|done].
  destruct (Remove_present k o p Hwf Hk) as (v' & e' & Hp' & _ & _ & HR).
  simplify_eq. pose proof (wf_removed k v0 e p o Hwf Hk Hp) as Hwf1.
  eexists _, _, _. split; [done|].
  split; [apply Set_absent; simpl; by rewrite lookup_delete_eq|].
  rewrite entries_inserted by done. f_equal. by apply (entries_removed o k e v0).
Qed.

Lemma wf_Init o : wf o → wf (Init o).
Proof.
  intros Hwf. split; simpl.
  - constructor.
  - intros k p Hk. by rewrite lookup_empty in Hk.
  - intros e He. by apply elem_of_nil in He.
  - intros e He. by apply elem_of_nil in He.
  - by apply wf_brk.
Qed.

(** X13. [Init] empties any map: afterwards [Keys] is empty, every [Get]
    reports not-found, [First] and [Last] are nil and the map compares
    [Equal] to a new one; and the re-initialized map is as good as new, in
    that any further operations on it return and keep the index and the
    order in bijection. *)
Theorem Init_empties cs o :
  run cs New = Ret o →
  Keys (Init o) = Ret []
  ∧ (∀ k, Get k (Init o) = Ret (None, false))
  ∧ First (Init o) = Ret None ∧ Last (Init o) = Ret None
  ∧ (∀ DeepEqual, Equal DeepEqual (Some (Init o)) (Some New) = Ret true)
  ∧ ∀ cs', ∃ o' ks, run cs' (Init o) = Ret o'
      ∧ Keys o' = Ret ks
      ∧ NoDup ks
      ∧ (list_to_set ks : gset K) = dom (items o').
Proof.
  intros Hwf%wf_reachable. repeat split; try done.
  intros cs'. destruct (wf_run cs' (Init o) (wf_Init o Hwf)) as (o' & Hrun & Hwf').
  exists o', (entries o').*1. split; [done|].
  split; [by apply Keys_entries|]. split; [by apply entries_keys_NoDup|].
  apply set_eq. intros k.
  by rewrite elem_of_list_to_set, elem_of_dom, elem_of_entries_keys.
Qed.

Lemma newFromPairs_loop_appends (item : list (K * V)) : ∀ o,
  wf o → NoDup item.*1 → (∀ k, k ∈ item.*1 → items o !! k = None) →
  ∃ o', newFromPairs_loop item o = Ret o' ∧ wf o'
        ∧ entries o' = entries o ++ item.
Proof.
  induction item as [|[k v] item IH]; intros o Hwf Hnd Hfresh.
  - exists o. by rewrite app_nil_r.
  - rewrite fmap_cons in Hnd, Hfresh. simpl in Hnd, Hfresh.
    apply NoDup_cons in Hnd as [Hk Hnd].
    assert (items o !! k = None) as Hko by (apply Hfresh; left).
    cbn [newFromPairs_loop fst snd]. rewrite Set_absent by done.
    cbn [mbind outcome_bind].
    destruct (IH (inserted k v o)) as (o' & Hrun & Hwf' & Hes).
    + by apply wf_inserted.
    + done.
    + intros k' Hk'. simpl. rewrite lookup_insert_ne by (intros ->; done).
      apply Hfresh. by right.
    + exists o'. split; [done|]. split; [done|].
      by rewrite Hes, entries_inserted, <-app_assoc.
Qed.

(** X18. The constructor of the test suite, a chain of [Set] calls on a new
    map, given pairs with pairwise distinct keys builds a map whose walk is
    exactly those pairs in the order given. *)
Theorem newFromPairs_distinct_keys (item : list (K * V)) :
  NoDup item.*1 →
  ∃ o, newFromPairs item = Ret o
       ∧ entries o = item
       ∧ Keys o = Ret item.*1.
Proof.
  intros Hnd.
  destruct (newFromPairs_loop_appends item New wf_New Hnd) as (o & Hrun & Hwf & Hes).
  { intros k _. apply lookup_empty. }
  exists o. split; [done|]. split; [done|].
  rewrite Keys_entries by done. by rewrite Hes.
Qed.

End composition.

(** ** Equality as a relation *)

Section equal_relation.
Context {K : Type} `{Countable K} {V : Type}.
Variable DeepEqual : V → V → bool.
Implicit Types (x y : @OrderedMap K _ _ V).

Lemma Equal_present x y :
  wf x → wf y →
  ∃ b, Equal DeepEqual (Some x) (Some y) = Ret b
       ∧ (b = true ↔ Forall2 (same_entry DeepEqual) (entries x) (entries y)).
Proof.
  intros Hx Hy. unfold Equal. cbn [is_nil andb orb negb deref mbind outcome_bind].
  destruct (decide (LinkedList.Len (order x) = LinkedList.Len (order y)))
    as [Hlen|Hlen].
  - rewrite bool_decide_eq_true_2 by done. cbn [negb].
    by apply (Equal_loop_lockstep DeepEqual x y _ [] []).
  - rewrite bool_decide_eq_false_2 by done. cbn [negb].
    exists false. split; [done|]. split; [done|].
    intros HF%Forall2_length. by rewrite !entries_length in HF.
Qed.


(** X15. [Equal] on two present maps does not depend on the order of its
    arguments when [DeepEqual] does not. *)
Theorem Equal_symmetric csx csy x y :
  (∀ v w, DeepEqual v w = DeepEqual w v) →
  run csx New = Ret x → run csy New = Ret y →
  Equal DeepEqual (Some x) (Some y) = Equal DeepEqual (Some y) (Some x).
Proof.
  intros Hsym Hx%wf_reachable Hy%wf_reachable.
  destruct (Equal_present x y Hx Hy) as (b & -> & Hb).
  destruct (Equal_present y x Hy Hx) as (b' & -> & Hb'). f_equal.
  assert (∀ l1 l2 : list (K * V),
    Forall2 (same_entry DeepEqual) l1 l2 → Forall2 (same_entry DeepEqual) l2 l1)
    as Hflip.
  { intros l1 l2 HF. apply Forall2_flip. eapply Forall2_impl; [exact HF|].
    intros a c [Hk Hd]. split; [done|]. by rewrite Hsym. }
  destruct b, b'; try done.
  - symmetry. apply Hb', Hflip. by apply Hb.
  - apply Hb, Hflip. by apply Hb'.
Qed.

End equal_relation.

(** ** The further properties on the maps of the test suite *)

Section further_scenarios.
Import Scenario.


Lemma Get_agrees_with_walk_witness :
  run fourSets New = Ret four
  ∧ (∃ r, Get "second" four = Ret r)
  ∧ (∀ v, Get "second" four = Ret (Some v, true) ↔ ("second", v) ∈ entries four)
  ∧ (Get "second" four = Ret (None, false) ↔ "second" ∉ (entries four).*1).
Proof.
  split; [vm_compute; reflexivity|].
  apply (Get_agrees_with_walk fourSets four "second"); vm_compute; reflexivity.
Defined.

Lemma GetOrDefault_stored_or_default_witness :
  run fourSets New = Ret four
  ∧ (∀ v, ("tenth", v) ∈ entries four → GetOrDefault "tenth" "10th" four = Ret v)
  ∧ ("tenth" ∉ (entries four).*1 → GetOrDefault "tenth" "10th" four = Ret "10th").
Proof.
  split; [vm_compute; reflexivity|].
  apply (GetOrDefault_stored_or_default fourSets four "tenth" "10th");
    vm_compute; reflexivity.
Defined.

Lemma First_Last_are_the_ends_witness :
  run fourSets New = Ret four
  ∧ (∃ p e, First four = Ret (Some p) ∧ load four p = Ret (mkPair "first" "1st" e))
  ∧ (∃ p e, Last four = Ret (Some p) ∧ load four p = Ret (mkPair "fifth" "5th" e)).
Proof.
  split; [vm_compute; reflexivity|]. split.
  - refine (proj1 (proj2 (First_Last_are_the_ends fourSets four _))
              ("first", "1st") _ _); vm_compute; reflexivity.
  - refine (proj2 (proj2 (First_Last_are_the_ends fourSets four _))
              [("first", "1st"); ("second", "2nd"); ("fourth", "4th")]
              ("fifth", "5th") _); vm_compute; reflexivity.
Defined.

Lemma Move_relative_missing_key_witness :
  run fourSets New = Ret four
  ∧ Get "asdf" four = Ret (None, false)
  ∧ MoveAfter "asdf" "alphabet" four = Ret (Some (KeyNotFoundError "asdf"), four)
  ∧ MoveBefore "asdf" "alphabet" four = Ret (Some (KeyNotFoundError "asdf"), four).
Proof.
  split; [vm_compute; reflexivity|]. split; [vm_compute; reflexivity|].
  refine (proj1 (Move_relative_missing_key fourSets four "asdf" "alphabet" _) _);
    vm_compute; reflexivity.
Defined.

Lemma MoveAfter_places_after_mark_witness :
  run fourSets New = Ret four
  ∧ ∃ o' l1 l2,
      MoveAfter "first" "second" four = Ret (None, o')
      ∧ filter (λ kv, kv.1 ≠ "first") (entries four) = l1 ++ ("second", "2nd") :: l2
      ∧ entries o' = l1 ++ ("second", "2nd") :: ("first", "1st") :: l2
      ∧ ∀ k', Get k' o' = Get k' four.
Proof.
  split; [vm_compute; reflexivity|].
  apply (MoveAfter_places_after_mark fourSets four "first" "1st" "second" "2nd");
    [vm_compute; reflexivity..|discriminate].
Defined.

Lemma MoveBefore_places_before_mark_witness :
  run fourSets New = Ret four
  ∧ ∃ o' l1 l2,
      MoveBefore "fifth" "first" four = Ret (None, o')
      ∧ filter (λ kv, kv.1 ≠ "fifth") (entries four) = l1 ++ ("first", "1st") :: l2
      ∧ entries o' = l1 ++ ("fifth", "5th") :: ("first", "1st") :: l2
      ∧ ∀ k', Get k' o' = Get k' four.
Proof.
  split; [vm_compute; reflexivity|].
  apply (MoveBefore_places_before_mark fourSets four "fifth" "5th" "first" "1st");
    [vm_compute; reflexivity..|discriminate].
Defined.

Lemma Move_relative_to_itself_witness :
  run fourSets New = Ret four
  ∧ Get "second" four = Ret (Some "2nd", true)
  ∧ MoveAfter "second" "second" four = Ret (None, four)
  ∧ MoveBefore "second" "second" four = Ret (None, four).
Proof.
  split; [vm_compute; reflexivity|]. split; [vm_compute; reflexivity|].
  apply (Move_relative_to_itself fourSets four "second" "2nd");
    vm_compute; reflexivity.
Defined.



Lemma errors_leave_map_unchanged_witness :
  InsertAfter "first" "1st" "second" four
    = Ret (Some (DuplicateKeyValueError "first" "1st"), four)
  ∧ four = four.
Proof.
  split; [vm_compute; reflexivity|].
  refine (proj1 (proj2 (proj2 (proj2 (proj2
    (errors_leave_map_unchanged four four "first" "1st" "second"
       (DuplicateKeyValueError "first" "1st")))))) _).
  vm_compute. reflexivity.
Defined.


Lemma Remove_then_Set_moves_to_back_witness :
  run fourSets New = Ret four
  ∧ Get "second" four = Ret (Some "2nd", true)
  ∧ ∃ r o1 o2, Remove "second" four = Ret (r, o1)
      ∧ Set_ "second" ":(" o1 = Ret o2
      ∧ entries o2
        = filter (λ kv, kv.1 ≠ "second") (entries four) ++ [("second", ":(")].
Proof.
  split; [vm_compute; reflexivity|]. split; [vm_compute; reflexivity|].
  apply (Remove_then_Set_moves_to_back fourSets four "second" "2nd" ":(");
    vm_compute; reflexivity.
Defined.

Lemma Init_empties_witness :
  run fourSets New = Ret four
  ∧ Keys (Init four) = Ret []
  ∧ (∀ k, Get k (Init four) = Ret (None, false))
  ∧ First (Init four) = Ret None ∧ Last (Init four) = Ret None
  ∧ (∀ DeepEqual, Equal DeepEqual (Some (Init four)) (Some New) = Ret true)
  ∧ ∀ cs', ∃ o' ks, run cs' (Init four) = Ret o'
      ∧ Keys o' = Ret ks
      ∧ NoDup ks
      ∧ (list_to_set ks : gset string) = dom (items o').
Proof.
  split; [vm_compute; reflexivity|].
  apply (Init_empties fourSets four); vm_compute; reflexivity.
Defined.


Lemma Equal_symmetric_witness :
  run abSets New = Ret ab
  ∧ run baSets New = Ret ba
  ∧ Equal Nat.eqb (Some ab) (Some ba) = Equal Nat.eqb (Some ba) (Some ab).
Proof.
  split; [vm_compute; reflexivity|]. split; [vm_compute; reflexivity|].
  apply (Equal_symmetric Nat.eqb abSets baSets ab ba);
    [exact Nat.eqb_sym|vm_compute; reflexivity..].
Defined.

Lemma Len_counts_the_keys_witness :
  run fourSets New = Ret four
  ∧ LinkedList.Len (order four) = size (items four)
  ∧ ∃ ks, Keys four = Ret ks ∧ length ks = size (items four).
Proof.
  split; [vm_compute; reflexivity|].
  apply (Len_counts_the_keys fourSets four); vm_compute; reflexivity.
Defined.

Lemma position_coherence_witness :
  run fourSets New = Ret four
  ∧ (∀ k p, items four !! k = Some p →
       ∃ v e, load four p = Ret (mkPair k v (Some e))
              ∧ e ∈ LinkedList.chain (order four)
              ∧ LinkedList.Value (order four) e = Some (Some p))
  ∧ (∀ e, e ∈ LinkedList.chain (order four) →
       ∃ p k v, LinkedList.Value (order four) e = Some (Some p)
                ∧ load four p = Ret (mkPair k v (Some e))
                ∧ items four !! k = Some p).
Proof.
  split; [vm_compute; reflexivity|].
  apply (position_coherence fourSets four); vm_compute; reflexivity.
Defined.

Lemma newFromPairs_distinct_keys_witness :
  NoDup fourPairs.*1
  ∧ ∃ o, newFromPairs fourPairs = Ret o
      ∧ entries o = fourPairs
      ∧ Keys o = Ret fourPairs.*1.
Proof.
  assert (NoDup fourPairs.*1) as Hnd
    by (apply (bool_decide_unpack _); vm_compute; exact I).
  split; [exact Hnd|]. apply (newFromPairs_distinct_keys fourPairs Hnd).
Defined.

End further_scenarios.

(** * The text diff on equal and on empty inputs *)

Section myers.
Implicit Types (l : list ascii) (v : list Z).
Local Open Scope Z_scope.

Lemma Myers_wrap_small z : - 2 ^ 63 ≤ z < 2 ^ 63 → Myers.wrap z = z.
Proof. intros Hz. unfold Myers.wrap. rewrite Z.mod_small; lia. Qed.

Lemma Myers_index_lookup {A} (xs : list A) (i : nat) x :
  xs !! i = Some x → Myers.index xs (Z.of_nat i) = Ret x.
Proof.
  intros Hx. unfold Myers.index.
  destruct (Z.ltb_spec (Z.of_nat i) 0) as [?|_]; [lia|].
  by rewrite Nat2Z.id, Hx.
Qed.

Lemma Myers_index_zeros (n : nat) (i : Z) :
  0 ≤ i < Z.of_nat n → Myers.index (replicate n 0) i = Ret 0.
Proof.
  intros Hi. rewrite <-(Z2Nat.id i) by lia. apply Myers_index_lookup.
  apply lookup_replicate_2. lia.
Qed.

Lemma Myers_snake_equal l (j : nat) : ∀ i : nat,
  (i + j = length l)%nat → Z.of_nat (length l) < 2 ^ 62 →
  Myers.ses_snake (S j) l l (Z.of_nat i) (Z.of_nat i)
  = Ret (Myers.len l, Myers.len l).
Proof.
  unfold Myers.len. induction j as [|j IH]; intros i Hij Hb.
  - cbn [Myers.ses_snake]. unfold Myers.len.
    assert (i = length l) as -> by lia.
    by rewrite Z.ltb_irrefl.
  - cbn [Myers.ses_snake]. unfold Myers.len.
    destruct (Z.ltb_spec (Z.of_nat i) (Z.of_nat (length l))) as [_|?]; [|lia].
    cbn [andb].
    destruct (lookup_lt_is_Some_2 l i) as [c Hc]; [lia|].
    rewrite (Myers_index_lookup l i c Hc). cbn [mbind outcome_bind].
    rewrite bool_decide_eq_true_2 by done.
    unfold Myers.add. rewrite Myers_wrap_small by lia.
    replace (Z.of_nat i + 1) with (Z.of_nat (S i)) by lia.
    apply IH; lia.
Qed.

Lemma Myers_backtrack_diagonal_unfold fuel x y prevX prevY steps :
  Myers.backtrack_diagonal (S fuel) x y prevX prevY steps =
  if (prevX <? x) && (prevY <? y) then
    Myers.backtrack_diagonal fuel (Myers.sub x 1) (Myers.sub y 1) prevX prevY
      (steps ++ [Myers.mkStep (Myers.mkPoint (Myers.sub x 1) (Myers.sub y 1))
                   (Myers.mkPoint x y)])
  else Ret (x, y, steps).
Proof. done. Qed.

Lemma Myers_diagonal_back (j : nat) : ∀ steps,
  Z.of_nat j < 2 ^ 62 →
  Myers.backtrack_diagonal (S j) (Z.of_nat j) (Z.of_nat j) 0 (-1) steps
  = Ret (0, 0, steps ++ ((λ i, Myers.diagonal (Z.of_nat i)) <$> rev (seq 0 j))).
Proof.
  induction j as [|j IH]; intros steps Hb.
  - simpl. by rewrite app_nil_r.
  - rewrite Myers_backtrack_diagonal_unfold.
    destruct (Z.ltb_spec 0 (Z.of_nat (S j))) as [_|?]; [|lia].
    destruct (Z.ltb_spec (-1) (Z.of_nat (S j))) as [_|?]; [|lia].
    cbn [andb]. unfold Myers.sub. rewrite Myers_wrap_small by lia.
    replace (Z.of_nat (S j) - 1) with (Z.of_nat j) by lia.
    rewrite IH by lia. rewrite seq_S, rev_app_distr. cbn [rev app fmap list_fmap].
    rewrite <-app_assoc. cbn [app Nat.add]. unfold Myers.diagonal at 2.
    by replace (Z.of_nat j + 1) with (Z.of_nat (S j)) by lia.
Qed.

Lemma Myers_ses_k_unfold fuel lhs rhs d k v :
  Myers.ses_k (S fuel) lhs rhs d k v =
  if k <=? d then
    preK ← Myers.get v (Myers.sub k 1);
    postK ← Myers.get v (Myers.add k 1);
    let x :=
      if (k =? Myers.neg d) || (negb (k =? d) && (preK <? postK))
      then postK else Myers.add preK 1 in
    let y := Myers.sub x k in
    '(x, y) ← Myers.ses_snake (S (length lhs)) lhs rhs x y;
    v ← (if k <? 0 then Myers.assign v (Myers.add (Myers.len v) k) x
         else Myers.assign v k x);
    if (Myers.len lhs <=? x) && (Myers.len rhs <=? y) then Ret (true, v)
    else Myers.ses_k fuel lhs rhs d (Myers.add k 2) v
  else Ret (false, v).
Proof. done. Qed.

Lemma Myers_ses_d_unfold fuel lhs rhs maxLen d v trace :
  Myers.ses_d (S fuel) lhs rhs maxLen d v trace =
  if d <=? maxLen then
    '(returned, v') ←
      Myers.ses_k (S (S (Z.to_nat d))) lhs rhs d (Myers.neg d) v;
    if returned : bool then Ret (trace ++ [v])
    else Myers.ses_d fuel lhs rhs maxLen (Myers.add d 1) v' (trace ++ [v])
  else Ret trace.
Proof. done. Qed.

(** The first diagonal, on equal inputs, runs to the end of both. *)
Lemma Myers_ses_k_equal l fuel :
  l ≠ [] → 4 * Myers.len l + 1 < 2 ^ 63 →
  ∃ v', Myers.ses_k (S fuel) l l 0 0
          (replicate (Z.to_nat (4 * Myers.len l + 1)) 0)
        = Ret (true, v').
Proof.
  intros Hne Hb. unfold Myers.len in *.
  assert (length l ≠ 0%nat) as Hlen0 by (by destruct l).
  set (n := Z.of_nat (length l)) in *.
  set (v := replicate (Z.to_nat (4 * n + 1)) 0).
  assert (Myers.len v = 4 * n + 1) as Hlen.
  { unfold Myers.len, v. rewrite length_replicate. lia. }
  rewrite Myers_ses_k_unfold.
  change (Myers.neg 0) with 0. change (Myers.sub 0 1) with (-1).
  change (Myers.add 0 1) with 1. change (0 <=? 0) with true.
  change (0 =? 0) with true. change (0 <? 0) with false.
  cbv iota. cbn [orb].
  assert (Myers.get v (-1) = Ret 0) as ->.
  { unfold Myers.get. change (-1 <? 0) with true. cbv iota. rewrite Hlen.
    unfold Myers.add. rewrite Myers_wrap_small by lia.
    apply Myers_index_zeros. lia. }
  assert (Myers.get v 1 = Ret 0) as ->.
  { unfold Myers.get. change (1 <? 0) with false. cbv iota.
    apply Myers_index_zeros. lia. }
  cbn [mbind outcome_bind]. cbv zeta. change (Myers.sub 0 0) with 0.
  pose proof (Myers_snake_equal l (length l) 0%nat) as Hs.
  change (Z.of_nat 0) with 0 in Hs. eexists. rewrite Hs by (fold n; lia).
  cbn [mbind outcome_bind]. unfold Myers.assign. rewrite Hlen.
  destruct (Z.leb_spec (4 * n + 1) 0) as [?|_]; [lia|].
  change (0 <? 0) with false. cbn [orb mbind outcome_bind].
  unfold Myers.len. by rewrite Z.leb_refl.
Qed.

(** On equal, non-empty inputs the search ends at once: the trace holds the
    one, all-zero snapshot taken before the first diagonal was walked. *)
Lemma Myers_ses_equal l :
  l ≠ [] → 4 * Myers.len l + 1 < 2 ^ 63 →
  Myers.ses l l = Ret [replicate (Z.to_nat (4 * Myers.len l + 1)) 0].
Proof.
  intros Hne Hb.
  destruct (Myers_ses_k_equal l 1 Hne Hb) as (v' & Hk).
  unfold Myers.ses. unfold Myers.len in *.
  set (n := Z.of_nat (length l)) in *.
  assert (0 ≤ n) as Hpos by (unfold n; lia).
  assert (Myers.add (Myers.mul 2 (Myers.add n n)) 1 = 4 * n + 1) as ->.
  { unfold Myers.add, Myers.mul. rewrite (Myers_wrap_small (n + n)) by lia.
    rewrite (Myers_wrap_small (2 * (n + n))) by lia.
    rewrite Myers_wrap_small; lia. }
  assert (Myers.add n n = 2 * n) as ->.
  { unfold Myers.add. rewrite Myers_wrap_small; lia. }
  unfold Myers.make. destruct (Z.ltb_spec (4 * n + 1) 0) as [?|_]; [lia|].
  cbn [mbind outcome_bind]. rewrite Myers_ses_d_unfold.
  destruct (Z.leb_spec 0 (2 * n)) as [_|?]; [|lia].
  change (Myers.neg 0) with 0. change (Z.to_nat 0) with 0%nat.
  by rewrite Hk.
Qed.

Lemma Myers_backtrack_d_unfold dn edits x y steps :
  Myers.backtrack_d (S dn) edits x y steps =
  v ← Myers.index edits (Z.of_nat dn);
  prevK ←
    (if (Myers.sub x y =? Myers.neg (Z.of_nat dn)) then Ret (Myers.add (Myers.sub x y) 1)
     else if negb (Myers.sub x y =? Z.of_nat dn) then
       pre ← Myers.get v (Myers.sub (Myers.sub x y) 1);
       post ← Myers.get v (Myers.add (Myers.sub x y) 1);
       if pre <? post then Ret (Myers.add (Myers.sub x y) 1)
       else Ret (Myers.sub (Myers.sub x y) 1)
     else Ret (Myers.sub (Myers.sub x y) 1));
  prevX ← Myers.get v prevK;
  '(x', y', steps) ←
    Myers.backtrack_diagonal (S (Z.to_nat (x - prevX))) x y prevX
      (Myers.sub prevX prevK) steps;
  Myers.backtrack_d dn edits prevX (Myers.sub prevX prevK)
    (if 0 <? Z.of_nat dn
     then steps ++ [Myers.mkStep (Myers.mkPoint prevX (Myers.sub prevX prevK))
                      (Myers.mkPoint x' y')]
     else steps).
Proof. done. Qed.

(** The backward walk over the one snapshot of equal inputs. *)
Lemma Myers_backtrack_d_equal l :
  l ≠ [] → 4 * Myers.len l + 1 < 2 ^ 63 →
  Myers.backtrack_d 1 [replicate (Z.to_nat (4 * Myers.len l + 1)) 0]
    (Myers.len l) (Myers.len l) []
  = Ret ((λ i, Myers.diagonal (Z.of_nat i)) <$> rev (seq 0 (length l))).
Proof.
  intros Hne Hb. unfold Myers.len in *.
  assert (length l ≠ 0%nat) as Hlen0 by (by destruct l).
  set (n := Z.of_nat (length l)) in *.
  assert (0 < n) as Hpos by (unfold n; lia).
  rewrite Myers_backtrack_d_unfold.
  unfold Myers.index at 1. change (Z.of_nat 0) with 0.
  change (0 <? 0) with false. cbv iota.
  change (deref ([?x] !! Z.to_nat 0)) with (Ret x).
  cbn [mbind outcome_bind].
  assert (Myers.sub n n = 0) as ->.
  { unfold Myers.sub. by rewrite Z.sub_diag. }
  change (Myers.neg 0) with 0. change (0 =? 0) with true. cbv iota.
  cbn [mbind outcome_bind]. change (Myers.add 0 1) with 1.
  assert (Myers.get (replicate (Z.to_nat (4 * n + 1)) 0) 1 = Ret 0) as ->.
  { unfold Myers.get. change (1 <? 0) with false. cbv iota.
    apply Myers_index_zeros. lia. }
  cbn [mbind outcome_bind]. change (Myers.sub 0 1) with (-1).
  replace (Z.to_nat (n - 0)) with (length l) by (unfold n; lia).
  subst n. rewrite Myers_diagonal_back by lia.
  by cbn [mbind outcome_bind app Myers.backtrack_d].
Qed.

(** X20. On equal, non-empty inputs [backtrack] returns exactly one step
    per byte, each a diagonal move that keeps the byte, from the end of the
    inputs back to their start: the edit script holds no insertion and no
    deletion. *)
Theorem backtrack_equal_inputs l :
  l ≠ [] → 4 * Myers.len l + 1 < 2 ^ 63 →
  Myers.backtrack l l
  = Ret ((λ i, Myers.diagonal (Z.of_nat i)) <$> rev (seq 0 (length l))).
Proof.
  intros Hne Hb. unfold Myers.backtrack. rewrite Myers_ses_equal by done.
  cbn [mbind outcome_bind length]. by apply Myers_backtrack_d_equal.
Qed.

Lemma Myers_Diff_loop_diagonals backing l (steps : list Myers.step) :
  ∀ buf prevA,
  (∀ bs : list ascii, bs `prefix_of` backing bs) →
  Forall (λ s, ∃ i : nat, (i < length l)%nat ∧ s = Myers.diagonal (Z.of_nat i))
    steps →
  ∃ buf' prevA',
    Myers.Diff_loop backing steps l l buf false prevA = Ret (buf', false, prevA').
Proof.
  induction steps as [|s steps IH]; intros buf prevA Hback Hall.
  - by eexists _, _.
  - apply Forall_cons in Hall as [(i & Hi & ->) Hall].
    cbn [Myers.Diff_loop Myers.diagonal Myers.X Myers.Y Myers.from Myers.to].
    destruct (Z.eqb_spec (Z.of_nat i + 1) (Z.of_nat i)) as [?|_]; [lia|].
    unfold Myers.slice. pose proof (prefix_length _ _ (Hback l)) as Hlen.
    unfold Myers.len.
    destruct (Z.ltb_spec (Z.of_nat i) 0) as [?|_]; [lia|].
    destruct (Z.ltb_spec (Z.of_nat i + 1) (Z.of_nat i)) as [?|_]; [lia|].
    destruct (Z.ltb_spec (Z.of_nat (length (backing l))) (Z.of_nat i + 1)) as [?|_];
      [lia|].
    cbn [orb mbind outcome_bind]. by apply IH.
Qed.

Lemma Myers_list_of_nonempty (s : string) :
  s ≠ EmptyString → String.list_ascii_of_string s ≠ [].
Proof. by destruct s. Qed.

(** X21. [Diff] of a non-empty string with itself reports no difference:
    it returns the empty string and false, whatever rearrangement the sort
    makes of the steps and whatever spare capacity the byte slices have. *)
Theorem Diff_equal_strings SliceStable backing (s : string) :
  (∀ steps, SliceStable steps ≡ₚ steps) →
  (∀ bs : list ascii, bs `prefix_of` backing bs) →
  s ≠ EmptyString →
  4 * Myers.len (String.list_ascii_of_string s) + 1 < 2 ^ 63 →
  Myers.Diff SliceStable backing s s = Ret (EmptyString, false).
Proof.
  intros Hsort Hback Hne%Myers_list_of_nonempty Hb. unfold Myers.Diff.
  set (l := String.list_ascii_of_string s) in *.
  unfold Myers.backtrack. rewrite Myers_ses_equal by done.
  cbn [mbind outcome_bind length]. rewrite Myers_backtrack_d_equal by done.
  cbn [mbind outcome_bind].
  destruct (Myers_Diff_loop_diagonals backing l
              (SliceStable ((λ i, Myers.diagonal (Z.of_nat i)) <$> rev (seq 0 (length l))))
              EmptyString 0 Hback) as (buf' & prevA' & ->); [|done].
  rewrite Hsort. apply Forall_fmap, Forall_forall. intros i Hi. simpl.
  exists i. split; [|done].
  apply list_elem_of_In, in_rev, in_seq in Hi. lia.
Qed.

(** X22. On two empty inputs the search reads one slot past its
    one-element table and panics, and so do [backtrack] and [Diff]. *)
Theorem Diff_empty_inputs_panic SliceStable backing :
  Myers.ses [] [] = Panic
  ∧ Myers.backtrack [] [] = Panic
  ∧ Myers.Diff SliceStable backing EmptyString EmptyString = Panic.
Proof. done. Qed.

End myers.

(** ** The text diff on the strings of its test suite *)

Section myers_scenarios.
Local Open Scope Z_scope.

Lemma backtrack_equal_inputs_witness :
  String.list_ascii_of_string "anteater" ≠ []
  ∧ 4 * Myers.len (String.list_ascii_of_string "anteater") + 1 < 2 ^ 63
  ∧ Myers.backtrack (String.list_ascii_of_string "anteater")
      (String.list_ascii_of_string "anteater")
    = Ret ((λ i, Myers.diagonal (Z.of_nat i)) <$> rev (seq 0 8)).
Proof.
  split; [discriminate|]. split; [vm_compute; reflexivity|].
  apply (backtrack_equal_inputs (String.list_ascii_of_string "anteater"));
    [discriminate|vm_compute; reflexivity].
Defined.

Lemma Diff_equal_strings_witness :
  "anteater" ≠ EmptyString
  ∧ 4 * Myers.len (String.list_ascii_of_string "anteater") + 1 < 2 ^ 63
  ∧ Myers.Diff (@rev Myers.step) (λ bs, bs) "anteater" "anteater"
    = Ret (EmptyString, false).
Proof.
  split; [discriminate|]. split; [vm_compute; reflexivity|].
  apply (Diff_equal_strings (@rev Myers.step) (λ bs, bs) "anteater").
  - intros steps. symmetry. apply Permutation_rev.
  - intros bs. reflexivity.
  - discriminate.
  - vm_compute. reflexivity.
Defined.

(** With the steps reversed, which is what the sort does to short lists, the
    model gives the outputs the test suite expects. *)
Example Diff_test_suite :
  Myers.Diff (@rev Myers.step) (λ bs, bs) "ABCABBA" "CBABAC"
    = Ret (String "027" "[31mA" +:+ String "027" "[0m" +:+ String "027" "[31mB"
           +:+ String "027" "[0mC" +:+ String "027" "[32mB" +:+ String "027" "[0mAB"
           +:+ String "027" "[31mB" +:+ String "027" "[0mA" +:+ String "027" "[32mC"
           +:+ String "027" "[0m", true)
  ∧ Myers.Diff (@rev Myers.step) (λ bs, bs) "anteater" "anteaters"
    = Ret ("anteater" +:+ String "027" "[32ms" +:+ String "027" "[0m", true)
  ∧ Myers.Diff (@rev Myers.step) (λ bs, bs) "anteaters" "anteater"
    = Ret ("anteater" +:+ String "027" "[31ms" +:+ String "027" "[0m", true).
Proof. repeat split; vm_compute; reflexivity. Qed.

End myers_scenarios.

(** ** Repeating an operation, and equality as an equivalence *)

Section repetition.
Context {K : Type} `{Countable K} {V : Type}.
Implicit Types (o : @OrderedMap K _ _ V) (k : K) (v : V) (p : loc).

(** X23. An insert relative to the key itself never adds an entry: when the
    key is absent the mark is missing and the call fails with
    [KeyNotFoundError]; when it is present the call fails with
    [DuplicateKeyValueError] carrying the stored value.  The map is
    unchanged either way. *)
Theorem Insert_relative_to_itself_fails cs o k v :
  run cs New = Ret o →
  (Get k o = Ret (None, false) →
     InsertAfter k v k o = Ret (Some (KeyNotFoundError k), o)
     ∧ InsertBefore k v k o = Ret (Some (KeyNotFoundError k), o))
  ∧ (∀ v0, Get k o = Ret (Some v0, true) →
     InsertAfter k v k o = Ret (Some (DuplicateKeyValueError k v0), o)
     ∧ InsertBefore k v k o = Ret (Some (DuplicateKeyValueError k v0), o)).
Proof.
  intros Hwf%wf_reachable. unfold InsertAfter, InsertBefore. split.
  - intros Hk%Get_None_inv; [|done]. by rewrite Hk.
  - intros v0 (p & e & Hk & Hp & _)%Get_Some_inv; [|done].
    by rewrite Hk, (load_Some _ _ _ Hp).
Qed.


Lemma LinkedList_MoveToFront_twice {T} e (l : LinkedList.List T) :
  LinkedList.MoveToFront e (LinkedList.MoveToFront e l)
  = LinkedList.MoveToFront e l.
Proof.
  destruct (decide (e ∈ LinkedList.chain l ∧ LinkedList.Front l ≠ Some e))
    as [Hd|Hd].
  - assert (LinkedList.MoveToFront e l
            = LinkedList.set_chain (e :: LinkedList.unlink e (LinkedList.chain l)) l)
      as -> by (unfold LinkedList.MoveToFront; by rewrite decide_True).
    unfold LinkedList.MoveToFront, LinkedList.Front. simpl.
    rewrite decide_False; [done|]. intros [_ Hne]. by apply Hne.
  - assert (LinkedList.MoveToFront e l = l) as ->
      by (unfold LinkedList.MoveToFront; by rewrite decide_False).
    unfold LinkedList.MoveToFront. by rewrite decide_False.
Qed.

Lemma LinkedList_MoveToBack_twice {T} e (l : LinkedList.List T) :
  LinkedList.MoveToBack e (LinkedList.MoveToBack e l)
  = LinkedList.MoveToBack e l.
Proof.
  destruct (decide (e ∈ LinkedList.chain l ∧ LinkedList.Back l ≠ Some e))
    as [Hd|Hd].
  - assert (LinkedList.MoveToBack e l
            = LinkedList.set_chain (LinkedList.unlink e (LinkedList.chain l) ++ [e]) l)
      as -> by (unfold LinkedList.MoveToBack; by rewrite decide_True).
    unfold LinkedList.MoveToBack, LinkedList.Back. simpl.
    rewrite decide_False; [done|]. intros [_ Hne]. apply Hne, last_snoc.
  - assert (LinkedList.MoveToBack e l = l) as ->
      by (unfold LinkedList.MoveToBack; by rewrite decide_False).
    unfold LinkedList.MoveToBack. by rewrite decide_False.
Qed.

(** X25. [MoveToFront] and [MoveToBack] are idempotent: repeating the call
    on the map it returned gives the same result and the same map. *)
Theorem Move_to_end_twice cs o k :
  run cs New = Ret o →
  (∃ r o1, MoveToFront k o = Ret (r, o1) ∧ MoveToFront k o1 = Ret (r, o1))
  ∧ (∃ r o1, MoveToBack k o = Ret (r, o1) ∧ MoveToBack k o1 = Ret (r, o1)).
Proof.
  intros Hwf%wf_reachable. unfold MoveToFront, MoveToBack.
  destruct (items o !! k) as [p|] eqn:Hk.
  - destruct (wf_items _ Hwf k p Hk) as (v & e & Hp & _).
    rewrite (load_Some _ _ _ Hp). cbn. split.
    + eexists _, _. split; [done|]. simpl. rewrite Hk.
      unfold load. simpl. rewrite Hp. cbn.
      by rewrite LinkedList_MoveToFront_twice.
    + eexists _, _. split; [done|]. simpl. rewrite Hk.
      unfold load. simpl. rewrite Hp. cbn.
      by rewrite LinkedList_MoveToBack_twice.
  - split; eexists _, _; (split; [done|]); by rewrite Hk.
Qed.

End repetition.

Section equal_equivalence.
Context {K : Type} `{Countable K} {V : Type}.
Variable DeepEqual : V → V → bool.
Implicit Types (x y z : @OrderedMap K _ _ V).

(** X26. [Equal] is transitive on present maps when [DeepEqual] is
    transitive on the values. *)
Theorem Equal_transitive csx csy csz x y z :
  (∀ a b c, DeepEqual a b = true → DeepEqual b c = true → DeepEqual a c = true) →
  run csx New = Ret x → run csy New = Ret y → run csz New = Ret z →
  Equal DeepEqual (Some x) (Some y) = Ret true →
  Equal DeepEqual (Some y) (Some z) = Ret true →
  Equal DeepEqual (Some x) (Some z) = Ret true.
Proof.
  intros Htrans Hx%wf_reachable Hy%wf_reachable Hz%wf_reachable.
  destruct (Equal_present DeepEqual x y Hx Hy) as (b1 & -> & Hb1).
  destruct (Equal_present DeepEqual y z Hy Hz) as (b2 & -> & Hb2).
  destruct (Equal_present DeepEqual x z Hx Hz) as (b3 & -> & Hb3).
  intros [= ->] [= ->]. f_equal. apply Hb3.
  eapply Forall2_trans; [|by apply Hb1|by apply Hb2].
  intros a b c [Hk1 Hd1] [Hk2 Hd2]. split; [congruence|by eapply Htrans].
Qed.

(** X27. Maps that compare [Equal] list the same keys in the same order. *)
Theorem Equal_maps_have_equal_Keys csx csy x y :
  run csx New = Ret x → run csy New = Ret y →
  Equal DeepEqual (Some x) (Some y) = Ret true →
  ∃ ks, Keys x = Ret ks ∧ Keys y = Ret ks.
Proof.
  intros Hx%wf_reachable Hy%wf_reachable.
  destruct (Equal_present DeepEqual x y Hx Hy) as (b & -> & Hb).
  intros [= ->]. exists (entries x).*1. rewrite !Keys_entries by done.
  split; [done|]. f_equal. symmetry. eapply same_entry_keys. by apply Hb.
Qed.

End equal_equivalence.

Section repetition_scenarios.
Import Scenario.

Lemma Insert_relative_to_itself_fails_witness :
  run fourSets New = Ret four
  ∧ Get "third" four = Ret (None, false)
  ∧ InsertAfter "third" "3rd" "third" four
    = Ret (Some (KeyNotFoundError "third"), four)
  ∧ InsertBefore "third" "3rd" "third" four
    = Ret (Some (KeyNotFoundError "third"), four).
Proof.
  split; [vm_compute; reflexivity|]. split; [vm_compute; reflexivity|].
  refine (proj1 (Insert_relative_to_itself_fails fourSets four "third" "3rd" _) _);
    vm_compute; reflexivity.
Defined.


Lemma Move_to_end_twice_witness :
  run fourSets New = Ret four
  ∧ (∃ r o1, MoveToFront "fourth" four = Ret (r, o1)
       ∧ MoveToFront "fourth" o1 = Ret (r, o1))
  ∧ (∃ r o1, MoveToBack "fourth" four = Ret (r, o1)
       ∧ MoveToBack "fourth" o1 = Ret (r, o1)).
Proof.
  split; [vm_compute; reflexivity|].
  apply (Move_to_end_twice fourSets four "fourth"). vm_compute. reflexivity.
Defined.

Lemma Equal_transitive_witness :
  Equal Nat.eqb (Some ab) (Some abMoved) = Ret true
  ∧ Equal Nat.eqb (Some abMoved) (Some ab) = Ret true
  ∧ Equal Nat.eqb (Some ab) (Some ab) = Ret true.
Proof.
  split; [vm_compute; reflexivity|]. split; [vm_compute; reflexivity|].
  apply (Equal_transitive Nat.eqb abSets abMovedSets abSets ab abMoved ab).
  - intros a b c ->%Nat.eqb_eq ->%Nat.eqb_eq. apply Nat.eqb_refl.
  - vm_compute. reflexivity.
  - vm_compute. reflexivity.
  - vm_compute. reflexivity.
  - vm_compute. reflexivity.
  - vm_compute. reflexivity.
Defined.

Lemma Equal_maps_have_equal_Keys_witness :
  Equal Nat.eqb (Some ab) (Some abMoved) = Ret true
  ∧ ∃ ks, Keys ab = Ret ks ∧ Keys abMoved = Ret ks.
Proof.
  split; [vm_compute; reflexivity|].
  apply (Equal_maps_have_equal_Keys Nat.eqb abSets abMovedSets ab abMoved);
    vm_compute; reflexivity.
Defined.

End repetition_scenarios.
